(** * CHAVI water-allocation model ([chavi_pulp_model.py])

    A shallow embedding of [build_and_solve], the function that builds the
    linear programme of the CHAVI irrigation project with PuLP, solves it
    and breaks the objective down into benefit, cost and penalty.

    Modelling conventions.
    - Python floats are modelled by exact rationals ([Q]); a decimal literal
      of the source is the rational it denotes and comparisons between
      numbers are stated with [==].  Rounding of binary floating point is
      outside the model.
    - Python strings are [string]; tuples are Rocq tuples; a [dict] is an
      association list in insertion order whose lookup raises [KeyError];
      a [set] is a duplicate-free list (the model iterates it in insertion
      order, Python in hash order: nothing below depends on that order
      beyond the order of summands).
    - PuLP is an external library.  Its objects are modelled by what the
      program builds with them: variables with a name and bounds, linear
      expressions as the program writes them, with their value under an
      assignment, constraints, and one problem object held in a store.
      The backends (constructors of solvers, [solve]) are a record of
      functions, [PulpEnv].
    - Exceptions and the PuLP objects created so far are threaded by a small
      state-and-error monad [M]. *)

From Stdlib Require Import ZArith QArith Qfield Lqa String Ascii List Bool Lia.
From Stdlib Require Import DecimalString.
From Stdlib Require Import Qround Qabs.
Import ListNotations.

Local Open Scope string_scope.
Local Open Scope Q_scope.

(* ================================================================== *)
(** ** Python values: keys, dictionaries, sets, exceptions *)

Inductive exn : Type :=
| KeyError (key : list string)
| IndexError
| UnboundLocalError (name : string)
| PulpError (msg : string)
| PulpSolverError (msg : string).

(** Hashable keys: equality test and the components shown by [KeyError]. *)
Class PyKey (K : Type) : Type := {
  key_eqb : K -> K -> bool;
  key_repr : K -> list string
}.

#[export] Instance PyKey_string : PyKey string := {
  key_eqb := String.eqb;
  key_repr := fun s => [s]
}.

#[export] Instance PyKey_pair {A B : Type} `{PyKey A} `{PyKey B} : PyKey (A * B) := {
  key_eqb := fun p q => key_eqb (fst p) (fst q) && key_eqb (snd p) (snd q);
  key_repr := fun p => (key_repr (fst p) ++ key_repr (snd p))%list
}.

Definition dict (K V : Type) : Type := list (K * V).

Fixpoint dict_find {K V : Type} `{PyKey K} (k : K) (d : dict K V) : option V :=
  match d with
  | [] => None
  | (k', v) :: d' => if key_eqb k k' then Some v else dict_find k d'
  end.

(** [k in d] *)
Definition dict_has {K V : Type} `{PyKey K} (k : K) (d : dict K V) : bool :=
  match dict_find k d with Some _ => true | None => false end.

(** [d[k] = v] *)
Fixpoint dict_set {K V : Type} `{PyKey K} (k : K) (v : V) (d : dict K V) : dict K V :=
  match d with
  | [] => [(k, v)]
  | (k', v') :: d' => if key_eqb k k' then (k', v) :: d' else (k', v') :: dict_set k v d'
  end.

(** [x in l] for a list or tuple of strings. *)
Fixpoint str_in (s : string) (l : list string) : bool :=
  match l with
  | [] => false
  | t :: l' => String.eqb s t || str_in s l'
  end.

(** [s.add(k)] *)
Fixpoint set_add {K : Type} `{PyKey K} (k : K) (s : list K) : list K :=
  match s with
  | [] => [k]
  | k' :: s' => if key_eqb k k' then s else k' :: set_add k s'
  end.

(** [enumerate(l)] *)
Fixpoint enumerate_from {A : Type} (n : nat) (l : list A) : list (nat * A) :=
  match l with
  | [] => []
  | a :: l' => (n, a) :: enumerate_from (S n) l'
  end.

Definition enumerate {A : Type} (l : list A) : list (nat * A) := enumerate_from 0 l.

(** [s.lower()], on a string held as its UTF-8 bytes.  The capital ASCII
    letters become small, and so does the Kelvin sign U+212A (bytes 226
    132 170), which Python lower-cases to the letter k.  Every other code
    point outside ASCII is left as it is: Python lower-cases it to code
    points outside ASCII again (U+0130 to an i followed by U+0307), so a
    string that holds one is different from every ASCII name before and
    after [lower()], in Python and here; the program only compares the
    result with ASCII names. *)
Definition ascii_lower (c : ascii) : ascii :=
  let n := nat_of_ascii c in
  if (65 <=? n)%nat && (n <=? 90)%nat then ascii_of_nat (n + 32) else c.

Definition is_kelvin (c1 c2 c3 : ascii) : bool :=
  Ascii.eqb c1 "226" && Ascii.eqb c2 "132" && Ascii.eqb c3 "170".

Fixpoint str_lower (s : string) : string :=
  match s with
  | EmptyString => EmptyString
  | String c s' =>
      match s' with
      | String c2 (String c3 s3) =>
          if is_kelvin c c2 c3 then String "k" (str_lower s3)
          else String (ascii_lower c) (str_lower s')
      | _ => String (ascii_lower c) (str_lower s')
      end
  end.

(** [str(n)] for an integer. *)
Definition str_of_Z (n : Z) : string := NilZero.string_of_int (Z.to_int n).

(* ================================================================== *)
(** ** PuLP objects *)

Record LpVariable : Type := {
  v_name : string;
  v_lowBound : option Q;
  v_upBound : option Q
}.

(** Linear expressions, as the program writes them. *)
#[local] Set Warnings "-register-all".
Inductive LpExpr : Type :=
| LpVar (v : LpVariable)
| LpNum (c : Q)
| lpSum (terms : list LpExpr)
| LpScale (c : Q) (e : LpExpr)
| LpAdd (e1 e2 : LpExpr)
| LpSub (e1 e2 : LpExpr).

Inductive LpConstraintSense : Type := LpConstraintLE | LpConstraintEQ | LpConstraintGE.

(** [lhs == rhs], [lhs <= rhs], [lhs >= rhs] with a number on the right. *)
Record LpConstraint : Type := {
  c_lhs : LpExpr;
  c_sense : LpConstraintSense;
  c_rhs : Q
}.

Inductive LpSense : Type := LpMinimize | LpMaximize.

Record LpProblem : Type := {
  p_name : string;
  p_sense : LpSense;
  p_constraints : list (string * LpConstraint);
  p_objective : option (string * LpExpr)
}.

(** Value of an expression when the variable called [n] has value [val n]. *)
Fixpoint lp_eval (val : string -> Q) (e : LpExpr) : Q :=
  match e with
  | LpVar v => val (v_name v)
  | LpNum c => c
  | lpSum terms =>
      (fix sum (l : list LpExpr) : Q :=
         match l with
         | [] => 0
         | t :: l' => lp_eval val t + sum l'
         end) terms
  | LpScale c e' => c * lp_eval val e'
  | LpAdd e1 e2 => lp_eval val e1 + lp_eval val e2
  | LpSub e1 e2 => lp_eval val e1 - lp_eval val e2
  end.

Definition holds (val : string -> Q) (c : LpConstraint) : Prop :=
  match c_sense c with
  | LpConstraintLE => lp_eval val (c_lhs c) <= c_rhs c
  | LpConstraintEQ => lp_eval val (c_lhs c) == c_rhs c
  | LpConstraintGE => c_rhs c <= lp_eval val (c_lhs c)
  end.

Definition in_bounds (val : string -> Q) (v : LpVariable) : Prop :=
  match v_lowBound v with Some l => l <= val (v_name v) | None => True end /\
  match v_upBound v with Some h => val (v_name v) <= h | None => True end.

(** The five statuses of PuLP and their names ([pl.LpStatus]). *)
Inductive LpStatusCode : Type :=
| LpStatusNotSolved | LpStatusOptimal | LpStatusInfeasible
| LpStatusUnbounded | LpStatusUndefined.

Definition LpStatus (c : LpStatusCode) : string :=
  match c with
  | LpStatusNotSolved => "Not Solved"
  | LpStatusOptimal => "Optimal"
  | LpStatusInfeasible => "Infeasible"
  | LpStatusUnbounded => "Unbounded"
  | LpStatusUndefined => "Undefined"
  end.

(** What a solve leaves behind: the status and, per variable name, its
    [varValue] ([None] when the solver did not set it). *)
Record Solution : Type := {
  sol_status : LpStatusCode;
  varValue : string -> option Q
}.

(** A configured backend. *)
Inductive Solver : Type :=
| PULP_CBC_CMD (msg : bool) (timeLimit : option Z)
| GLPK_CMD (msg : bool) (options : option (list string)).

(** The installed PuLP: which backend constructors raise, and what a solve
    call does ([None] is [prob.solve()] with PuLP's default solver). *)
Record PulpEnv : Type := {
  ctor_raises : Solver -> bool;
  lp_solve : option Solver -> LpProblem -> exn + Solution
}.

(** [pl.value(e)]: [None] as soon as one variable of the expression has no
    value.  A product with the number 0 keeps no variable
    ([LpAffineExpression.__mul__] copies the terms only when the factor is
    not 0), so its value is 0 whatever the variables hold. *)
Fixpoint lp_value (s : Solution) (e : LpExpr) : option Q :=
  match e with
  | LpVar v => varValue s (v_name v)
  | LpNum c => Some c
  | lpSum terms =>
      (fix sum (l : list LpExpr) : option Q :=
         match l with
         | [] => Some 0
         | t :: l' =>
             match lp_value s t, sum l' with
             | Some a, Some b => Some (a + b)
             | _, _ => None
             end
         end) terms
  | LpScale c e' =>
      if Qeq_bool c 0 then Some 0
      else match lp_value s e' with Some a => Some (c * a) | None => None end
  | LpAdd e1 e2 =>
      match lp_value s e1, lp_value s e2 with
      | Some a, Some b => Some (a + b)
      | _, _ => None
      end
  | LpSub e1 e2 =>
      match lp_value s e1, lp_value s e2 with
      | Some a, Some b => Some (a - b)
      | _, _ => None
      end
  end.

(** [v.value() or 0.0] *)
Definition value_or_zero (o : option Q) : Q :=
  match o with
  | Some v => if Qeq_bool v 0 then 0 else v
  | None => 0
  end.

(* ================================================================== *)
(** ** The store and the monad *)

(** The PuLP objects created so far by the running call. *)
Record Store : Type := {
  st_prob : option LpProblem;
  st_vars : list LpVariable
}.

Definition empty_store : Store := {| st_prob := None; st_vars := [] |}.

Definition M (A : Type) : Type := Store -> Store * (exn + A).

Definition ret {A : Type} (a : A) : M A := fun s => (s, inr a).

Definition raise {A : Type} (e : exn) : M A := fun s => (s, inl e).

Definition bind {A B : Type} (c : M A) (k : A -> M B) : M B :=
  fun s =>
    match c s with
    | (s', inl e) => (s', inl e)
    | (s', inr a) => k a s'
    end.

Declare Scope py_scope.
Delimit Scope py_scope with py.
Notation "x <- c ;; k" := (bind c (fun x => k))
  (at level 100, c at next level, right associativity) : py_scope.
Notation "' p <- c ;; k" := (bind c (fun p => k))
  (at level 100, p pattern, c at next level, right associativity) : py_scope.
Notation "c ;;; k" := (bind c (fun _ => k))
  (at level 100, right associativity) : py_scope.
Local Open Scope py_scope.

(** [d[k]] *)
Definition dict_get {K V : Type} `{PyKey K} (k : K) (d : dict K V) : M V :=
  match dict_find k d with
  | Some v => ret v
  | None => raise (KeyError (key_repr k))
  end.

(** [l[n]] *)
Definition list_get {A : Type} (n : nat) (l : list A) : M A :=
  match nth_error l n with
  | Some a => ret a
  | None => raise IndexError
  end.

(** [for a in l: body(a)] *)
Fixpoint for_ {A : Type} (l : list A) (body : A -> M unit) : M unit :=
  match l with
  | [] => ret tt
  | a :: l' => body a ;;; for_ l' body
  end.

(** [[f(a) for a in l]] *)
Fixpoint mapM {A B : Type} (f : A -> M B) (l : list A) : M (list B) :=
  match l with
  | [] => ret []
  | a :: l' => b <- f a ;; bs <- mapM f l' ;; ret (b :: bs)
  end.

(** [{k(a): v(a) for a in l}] *)
Fixpoint dict_comp_from {A K V : Type} `{PyKey K}
    (d : dict K V) (f : A -> M (K * V)) (l : list A) : M (dict K V) :=
  match l with
  | [] => ret d
  | a :: l' => kv <- f a ;; dict_comp_from (dict_set (fst kv) (snd kv) d) f l'
  end.

Definition dict_comp {A K V : Type} `{PyKey K} (f : A -> M (K * V)) (l : list A)
  : M (dict K V) := dict_comp_from [] f l.

(** [pl.LpProblem(name, sense)] bound to [prob]. *)
Definition new_LpProblem (name : string) (sense : LpSense) : M unit :=
  fun s =>
    ({| st_prob := Some {| p_name := name; p_sense := sense;
                           p_constraints := []; p_objective := None |};
        st_vars := st_vars s |}, inr tt).

(** [pl.LpVariable(name, lowBound=lb)] *)
Definition new_LpVariable (name : string) (lb : option Q) : M LpVariable :=
  fun s =>
    let v := {| v_name := name; v_lowBound := lb; v_upBound := None |} in
    ({| st_prob := st_prob s; st_vars := (st_vars s ++ [v])%list |}, inr v).

Definition get_prob : M LpProblem :=
  fun s =>
    match st_prob s with
    | Some p => (s, inr p)
    | None => (s, inl (UnboundLocalError "prob"))
    end.

Definition set_prob (p : LpProblem) : M unit :=
  fun s => ({| st_prob := Some p; st_vars := st_vars s |}, inr tt).

(** [prob += c, name] for a constraint [c].  PuLP refuses a name that a
    constraint of the problem already has. *)
Definition add_constraint (c : LpConstraint) (name : string) : M unit :=
  p <- get_prob ;;
  if str_in name (map fst (p_constraints p)) then
    raise (PulpError ("overlapping constraint names: " ++ name))
  else
    set_prob {| p_name := p_name p; p_sense := p_sense p;
                p_constraints := (p_constraints p ++ [(name, c)])%list;
                p_objective := p_objective p |}.

(** [prob += e, name] for an expression [e]: the objective. *)
Definition set_objective (e : LpExpr) (name : string) : M unit :=
  p <- get_prob ;;
  set_prob {| p_name := p_name p; p_sense := p_sense p;
              p_constraints := p_constraints p;
              p_objective := Some (name, e) |}.

(** [prob.solve(solver)] / [prob.solve()] *)
Definition solve (env : PulpEnv) (solver : option Solver) : M Solution :=
  p <- get_prob ;;
  match lp_solve env solver p with
  | inl e => raise e
  | inr s => ret s
  end.

(* ================================================================== *)
(** ** [build_and_solve]: arguments and base data (lines 33-121) *)

Record Args : Type := {
  scenario : string;
  mult_pozos_chao : Q;
  mult_pozos_viru : Q;
  penalty_usd_hm3 : Q;
  weight_ptap : Q;
  weight_ind_pec : Q;
  weight_agro : Q;
  cap_santa_m3s : Q;
  solver_name : option string;
  solver_time_limit : option Z;
  solver_msg : bool
}.

Definition default_args : Args := {|
  scenario := "S1";
  mult_pozos_chao := 1.0;
  mult_pozos_viru := 1.0;
  penalty_usd_hm3 := 100000000;
  weight_ptap := 100.0;
  weight_ind_pec := 50.0;
  weight_agro := 1.0;
  cap_santa_m3s := 88.0;
  solver_name := Some "cbc";
  solver_time_limit := None;
  solver_msg := false
|}.

Definition months : list string :=
  ["Ene";"Feb";"Mar";"Abr";"May";"Jun";"Jul";"Ago";"Sep";"Oct";"Nov";"Dic"].

Definition days : list Z := [31;28;31;30;31;30;31;31;30;31;30;31]%Z.

(** [{m: d*24*3600 for m, d in zip(months, days)}] *)
Definition secs : dict string Z :=
  fold_left (fun d md => dict_set (fst md) (snd md * 24 * 3600)%Z d)
            (combine months days) [].

Definition sources : list string :=
  ["Santa";"Huamanzaña";"Chorobal";"Viru_Rio";
   "Dren_Chao";"Dren_Viru";"Pozos_Chao";"Pozos_Viru"].

Definition demands : list string :=
  ["Chao";"Viru";"S1";"S2";"S3";"S4";"PTAP_Trujillo";"PTAP_Chao";"Industria";"Pecuario"].

Definition offer_m3s : dict string (list Q) := [
  ("Santa",      [17.59; 18.41; 17.29; 16.54; 16.36; 14.90; 11.72; 11.90; 11.55; 14.72; 18.06; 19.02]);
  ("Huamanzaña", repeat 0.00 12);
  ("Chorobal",   [0.00; 0.00; 0.00; 0.01; 0.00; 0.00; 0.00; 0.00; 0.00; 0.00; 0.00; 0.00]);
  ("Viru_Rio",   [0.21; 1.15; 2.01; 1.89; 0.57; 0.07; 0.03; 0.00; 0.00; 0.00; 0.00; 0.00]);
  ("Dren_Chao",  [0.53; 0.66; 0.50; 0.51; 0.52; 0.49; 0.49; 0.67; 0.94; 1.04; 1.04; 0.83]);
  ("Dren_Viru",  [0.61; 0.70; 0.63; 0.69; 0.62; 0.62; 0.57; 0.59; 0.59; 0.53; 0.65; 0.65]);
  ("Pozos_Chao", [0.00; 0.00; 0.00; 0.00; 0.00; 0.00; 0.19; 0.22; 0.27; 0.24; 0.00; 0.00]);
  ("Pozos_Viru", [0.00; 0.00; 0.00; 0.00; 0.00; 0.15; 0.19; 0.22; 0.25; 0.23; 0.25; 0.19])
].

Definition demand_m3s : dict string (list Q) := [
  ("Chao",          [1.98; 1.82; 1.92; 1.88; 1.85; 1.79; 1.74; 2.72; 3.77; 4.16; 3.80; 3.14]);
  ("Viru",          [2.35; 2.76; 2.78; 2.99; 3.18; 3.15; 2.78; 2.93; 2.66; 2.77; 2.64; 3.22]);
  ("S1",            [4.60; 4.73; 4.49; 4.45; 3.98; 3.70; 2.88; 2.89; 2.99; 3.45; 4.31; 4.47]);
  ("S2",            [0.92; 0.94; 0.90; 0.89; 0.79; 0.74; 0.57; 0.58; 0.60; 0.69; 0.86; 0.89]);
  ("S3",            [2.83; 2.91; 2.77; 2.74; 2.45; 2.27; 1.77; 1.78; 1.84; 2.12; 2.65; 2.75]);
  ("S4",            [3.18; 3.27; 3.11; 3.08; 2.75; 2.56; 1.99; 2.00; 2.07; 2.39; 2.98; 3.09]);
  ("PTAP_Trujillo", [1.22; 1.14; 1.21; 1.11; 1.17; 1.18; 1.00; 1.11; 1.20; 1.23; 1.19; 1.21]);
  ("PTAP_Chao",     [0.04; 0.04; 0.03; 0.04; 0.04; 0.04; 0.04; 0.03; 0.04; 0.04; 0.04; 0.04]);
  ("Industria",     repeat 0.50 12);
  ("Pecuario",      repeat 0.60 12)
].

Definition cost_offer_USD_m3 : dict string Q := [
  ("Santa",      0.024820);
  ("Huamanzaña", 0.0017953);
  ("Chorobal",   0.0017953);
  ("Viru_Rio",   0.0018038);
  ("Dren_Chao",  0.0017953);
  ("Dren_Viru",  0.0018038);
  ("Pozos_Chao", 0.0615100);
  ("Pozos_Viru", 0.0615100)
].

Definition value_dem_USD_m3 : dict string Q := [
  ("Chao",          0.0017953);
  ("Viru",          0.0018038);
  ("S1",            0.024820);
  ("S2",            0.024820);
  ("S3",            0.024820);
  ("S4",            0.024820);
  ("PTAP_Trujillo", 0.028915);
  ("PTAP_Chao",     0.028915);
  ("Industria",     0.024820);
  ("Pecuario",      0.024820)
].

Definition efficiencies : dict string (dict string Q) := [
  ("S1", [
    ("Chao", 0.30); ("Viru", 0.30);
    ("S1", 0.89); ("S2", 0.89); ("S3", 0.89); ("S4", 0.89);
    ("PTAP_Trujillo", 1.0); ("PTAP_Chao", 1.0); ("Industria", 1.0); ("Pecuario", 1.0)
  ]);
  ("S2", [
    ("Chao", 0.60); ("Viru", 0.60);
    ("S1", 0.95); ("S2", 0.95); ("S3", 0.95); ("S4", 0.95);
    ("PTAP_Trujillo", 1.0); ("PTAP_Chao", 1.0); ("Industria", 1.0); ("Pecuario", 1.0)
  ])
].

(** The float [1e6]. *)
Definition million : Q := 1000000.

(* ================================================================== *)
(** ** Allowed arcs and conversion to hm3 per month (lines 123-156) *)

Definition arc : Type := (string * string * string)%type.

Definition allowed_arcs : list arc :=
  let s0 : list arc := [] in
  let s1 :=
    fold_left (fun s j => fold_left (fun s m => set_add ("Santa", j, m) s) months s)
              demands s0 in
  let s2 :=
    fold_left (fun s i => fold_left (fun s m => set_add (i, "Chao", m) s) months s)
              ["Huamanzaña";"Chorobal";"Dren_Chao";"Pozos_Chao"] s1 in
  fold_left (fun s i => fold_left (fun s m => set_add (i, "Viru", m) s) months s)
            ["Viru_Rio";"Dren_Viru";"Pozos_Viru"] s2.

(** [for a in l1 for b in l2] *)
Definition for_for {A B : Type} (l1 : list A) (l2 : list B) : list (A * B) :=
  flat_map (fun a => map (fun b => (a, b)) l2) l1.

(** [{(i,m): offer_m3s[i][mi] * secs[m] / 1e6 for i in sources for mi,m in enumerate(months)}] *)
Definition Qhat : M (dict (string * string) Q) :=
  dict_comp
    (fun imm : string * (nat * string) =>
       let i := fst imm in
       let mi := fst (snd imm) in
       let m := snd (snd imm) in
       series <- dict_get i offer_m3s ;;
       flow <- list_get mi series ;;
       s <- dict_get m secs ;;
       ret ((i, m), flow * inject_Z s / million))
    (for_for sources (enumerate months)).

Definition Qhat_adjusted (a : Args) (Qhat : dict (string * string) Q)
    (i m : string) : M Q :=
  base <- dict_get (i, m) Qhat ;;
  if String.eqb i "Pozos_Chao" then ret (base * mult_pozos_chao a)
  else if String.eqb i "Pozos_Viru" then ret (base * mult_pozos_viru a)
  else ret base.

(** [{(j,m): demand_m3s[j][mi] * secs[m] / 1e6 for j in demands for mi,m in enumerate(months)}] *)
Definition Dhat : M (dict (string * string) Q) :=
  dict_comp
    (fun jmm : string * (nat * string) =>
       let j := fst jmm in
       let mi := fst (snd jmm) in
       let m := snd (snd jmm) in
       series <- dict_get j demand_m3s ;;
       flow <- list_get mi series ;;
       s <- dict_get m secs ;;
       ret ((j, m), flow * inject_Z s / million))
    (for_for demands (enumerate months)).

(** [{m: cap_santa_m3s * secs[m] / 1e6 for m in months}] *)
Definition CapSanta (a : Args) : M (dict string Q) :=
  dict_comp
    (fun m => s <- dict_get m secs ;; ret (m, cap_santa_m3s a * inject_Z s / million))
    months.

(** [{i: cost_offer_USD_m3[i]*1e6 for i in sources}] *)
Definition cost_offer_USD_hm3 : M (dict string Q) :=
  dict_comp (fun i => c <- dict_get i cost_offer_USD_m3 ;; ret (i, c * million)) sources.

(** [{j: value_dem_USD_m3[j]*1e6 for j in demands}] *)
Definition value_dem_USD_hm3 : M (dict string Q) :=
  dict_comp (fun j => v <- dict_get j value_dem_USD_m3 ;; ret (j, v * million)) demands.

Definition weight_dem (a : Args) : dict string Q :=
  fold_left
    (fun d j =>
       if str_in j ["PTAP_Trujillo";"PTAP_Chao"] then dict_set j (weight_ptap a) d
       else if str_in j ["Industria";"Pecuario"] then dict_set j (weight_ind_pec a) d
       else dict_set j (weight_agro a) d)
    demands [].

(* ================================================================== *)
(** ** The model (lines 158-192) *)

(** [f"x__{i}__{j}__{m}"] and [f"u__{j}__{m}"] *)
Definition x_name (i j m : string) : string := "x__" ++ i ++ "__" ++ j ++ "__" ++ m.
Definition u_name (j m : string) : string := "u__" ++ j ++ "__" ++ m.

(** The local variables that the rest of the function reads. *)
Record Locals : Type := {
  l_x : dict arc LpVariable;
  l_u : dict (string * string) LpVariable;
  l_eff : dict string Q;
  l_cost : dict string Q;
  l_value : dict string Q;
  l_weight : dict string Q
}.

Definition build_model (a : Args) : M Locals :=
  Qhat <- Qhat ;;
  Dhat <- Dhat ;;
  CapSanta <- CapSanta a ;;
  cost_offer_USD_hm3 <- cost_offer_USD_hm3 ;;
  value_dem_USD_hm3 <- value_dem_USD_hm3 ;;
  let weight_dem := weight_dem a in
  (* Modelo *)
  new_LpProblem "CHAVI_Optim_Recursos_Hidricos" LpMaximize ;;;
  (* Variables *)
  x <- dict_comp
         (fun ijm : arc =>
            let i := fst (fst ijm) in let j := snd (fst ijm) in let m := snd ijm in
            v <- new_LpVariable (x_name i j m) (Some 0) ;; ret (ijm, v))
         allowed_arcs ;;
  u <- dict_comp
         (fun jm : string * string =>
            v <- new_LpVariable (u_name (fst jm) (snd jm)) (Some 0) ;; ret (jm, v))
         (for_for demands months) ;;
  eff <- dict_get (scenario a) efficiencies ;;
  (* Balance de demanda *)
  for_ demands (fun j =>
    ej <- dict_get j eff ;;
    for_ months (fun m =>
      xs <- mapM (fun i => v <- dict_get (i, j, m) x ;; ret (LpVar v))
                 (filter (fun i => dict_has (i, j, m) x) sources) ;;
      ujm <- dict_get (j, m) u ;;
      d <- dict_get (j, m) Dhat ;;
      add_constraint
        {| c_lhs := LpAdd (LpScale ej (lpSum xs)) (LpVar ujm);
           c_sense := LpConstraintEQ; c_rhs := d |}
        ("Balance_Dem_" ++ j ++ "_" ++ m))) ;;;
  (* Oferta por fuente/mes *)
  for_ sources (fun i =>
    for_ months (fun m =>
      xs <- mapM (fun j => v <- dict_get (i, j, m) x ;; ret (LpVar v))
                 (filter (fun j => dict_has (i, j, m) x) demands) ;;
      q <- Qhat_adjusted a Qhat i m ;;
      add_constraint
        {| c_lhs := lpSum xs; c_sense := LpConstraintLE; c_rhs := q |}
        ("Oferta_" ++ i ++ "_" ++ m))) ;;;
  (* Capacidad canal Santa *)
  for_ months (fun m =>
    xs <- mapM (fun j => v <- dict_get ("Santa", j, m) x ;; ret (LpVar v))
               (filter (fun j => dict_has ("Santa", j, m) x) demands) ;;
    cap <- dict_get m CapSanta ;;
    add_constraint
      {| c_lhs := lpSum xs; c_sense := LpConstraintLE; c_rhs := cap |}
      ("Cap_Santa_" ++ m)) ;;;
  (* Deficit cero para PTAPs, Industria, Pecuario *)
  for_ ["PTAP_Trujillo";"PTAP_Chao";"Industria";"Pecuario"] (fun j =>
    for_ months (fun m =>
      ujm <- dict_get (j, m) u ;;
      add_constraint
        {| c_lhs := LpVar ujm; c_sense := LpConstraintEQ; c_rhs := 0 |}
        ("DeficitCero_" ++ j ++ "_" ++ m))) ;;;
  (* Objetivo *)
  benefit_terms <-
    mapM (fun kv : arc * LpVariable =>
            let i := fst (fst (fst kv)) in let j := snd (fst (fst kv)) in
            e <- dict_get j eff ;;
            v <- dict_get j value_dem_USD_hm3 ;;
            c <- dict_get i cost_offer_USD_hm3 ;;
            xv <- dict_get (fst kv) x ;;
            ret (LpScale (e * v - c) (LpVar xv)))
         x ;;
  penalty_terms <-
    mapM (fun jm : string * string =>
            w <- dict_get (fst jm) weight_dem ;;
            ujm <- dict_get jm u ;;
            ret (LpScale (penalty_usd_hm3 a * w) (LpVar ujm)))
         (for_for demands months) ;;
  set_objective (LpSub (lpSum benefit_terms) (lpSum penalty_terms)) "Beneficio_Neto" ;;;
  ret {| l_x := x; l_u := u; l_eff := eff; l_cost := cost_offer_USD_hm3;
         l_value := value_dem_USD_hm3; l_weight := weight_dem |}.

(* ================================================================== *)
(** ** Solver (lines 194-213) *)

(** [solver_name or "cbc"] *)
Definition name_or_cbc (n : option string) : string :=
  match n with
  | None => "cbc"
  | Some EmptyString => "cbc"
  | Some s => s
  end.

(** A constructor call inside [try: ... except Exception: solver = None]. *)
Definition try_ctor (env : PulpEnv) (s : Solver) : option Solver :=
  if ctor_raises env s then None else Some s.

(** [[f'--tmlim {solver_time_limit}'] if solver_time_limit else None] *)
Definition glpk_options (t : option Z) : option (list string) :=
  match t with
  | None => None
  | Some n => if Z.eqb n 0 then None else Some ["--tmlim " ++ str_of_Z n]
  end.

Definition choose_solver (env : PulpEnv) (a : Args) : option Solver :=
  let solver_name := str_lower (name_or_cbc (solver_name a)) in
  if str_in solver_name ["cbc";"pulp_cbc_cmd"] then
    try_ctor env (PULP_CBC_CMD (solver_msg a) (solver_time_limit a))
  else if str_in solver_name ["glpk";"glpk_cmd"] then
    try_ctor env (GLPK_CMD (solver_msg a) (glpk_options (solver_time_limit a)))
  else
    try_ctor env (PULP_CBC_CMD (solver_msg a) (solver_time_limit a)).

(* ================================================================== *)
(** ** Breakdown of benefit, cost and penalty (lines 215-221) and result *)

(** The fields of the returned dictionary that carry the solution's
    totals; the report rows and the rounded summary re-format the same
    values and are not modelled. *)
Record Result : Type := {
  r_status : string;
  r_objective : option Q;
  r_benefit_total : Q;
  r_cost_total : Q;
  r_penalty_total : Q
}.

(** A loop that updates accumulators. *)
Fixpoint foldM {A S : Type} (f : S -> A -> M S) (l : list A) (s0 : S) : M S :=
  match l with
  | [] => ret s0
  | a :: l' => s1 <- f s0 a ;; foldM f l' s1
  end.

(** [sum(l)] *)
Definition py_sum (l : list Q) : Q := fold_left Qplus l 0.

Definition breakdown (a : Args) (loc : Locals) (sol : Solution) : M (Q * Q * Q) :=
  bc <- foldM
          (fun (acc : Q * Q) (kv : arc * LpVariable) =>
             let i := fst (fst (fst kv)) in let j := snd (fst (fst kv)) in
             let val := value_or_zero (varValue sol (v_name (snd kv))) in
             e <- dict_get j (l_eff loc) ;;
             v <- dict_get j (l_value loc) ;;
             c <- dict_get i (l_cost loc) ;;
             ret (fst acc + e * v * val, snd acc + c * val))
          (l_x loc) (0.0, 0.0) ;;
  pen <- mapM (fun jm : string * string =>
                 w <- dict_get (fst jm) (l_weight loc) ;;
                 ujm <- dict_get jm (l_u loc) ;;
                 ret (penalty_usd_hm3 a * w * value_or_zero (varValue sol (v_name ujm))))
              (for_for demands months) ;;
  ret (fst bc, snd bc, py_sum pen).

Definition build_and_solve_M (env : PulpEnv) (a : Args) : M Result :=
  loc <- build_model a ;;
  sol <- solve env (choose_solver env a) ;;
  prob <- get_prob ;;
  let status := LpStatus (sol_status sol) in
  let obj := match p_objective prob with
             | Some ne => lp_value sol (snd ne)
             | None => None
             end in
  bcp <- breakdown a loc sol ;;
  ret {| r_status := status; r_objective := obj;
         r_benefit_total := fst (fst bcp); r_cost_total := snd (fst bcp);
         r_penalty_total := snd bcp |}.

(** A call: the store starts empty; the final store holds the PuLP objects
    the call created. *)
Definition build_and_solve (env : PulpEnv) (a : Args) : Store * (exn + Result) :=
  build_and_solve_M env a empty_store.

(* ================================================================== *)
(** ** Closed forms

    The quantities of the model written as total functions of the source,
    the demand and the month, and the problem they make up.  They are
    compared with what [build_model] builds in [build_model_store]. *)

Definition recognised (sc : string) : Prop := sc = "S1" \/ sc = "S2".

Definition chao_sources : list string := ["Huamanzaña";"Chorobal";"Dren_Chao";"Pozos_Chao"].
Definition viru_sources : list string := ["Viru_Rio";"Dren_Viru";"Pozos_Viru"].
Definition priority_demands : list string := ["PTAP_Trujillo";"PTAP_Chao";"Industria";"Pecuario"].

(** The three connectivity rules. *)
Definition valid_arc (i j : string) : bool :=
  String.eqb i "Santa"
  || (String.eqb j "Chao" && str_in i chao_sources)
  || (String.eqb j "Viru" && str_in i viru_sources).

Definition arcs : list arc :=
  (map (fun jm => ("Santa", fst jm, snd jm)) (for_for demands months)
   ++ map (fun im => (fst im, "Chao", snd im)) (for_for chao_sources months)
   ++ map (fun im => (fst im, "Viru", snd im)) (for_for viru_sources months))%list.

(** Calendar of a non-leap year. *)
Definition day_count (m : string) : Z :=
  if String.eqb m "Feb" then 28%Z
  else if str_in m ["Abr";"Jun";"Sep";"Nov"] then 30%Z
  else 31%Z.

Definition seconds_in_month (m : string) : Z := (day_count m * 24 * 3600)%Z.

(** flow rate (m3/s) to monthly volume (hm3) *)
Definition monthly_volume (flow : Q) (m : string) : Q :=
  flow * inject_Z (seconds_in_month m) / 1000000.

Fixpoint index_of (m : string) (l : list string) : nat :=
  match l with
  | [] => 0%nat
  | m' :: l' => if String.eqb m m' then 0%nat else S (index_of m l')
  end.

Definition flow_of (table : dict string (list Q)) (k m : string) : Q :=
  match dict_find k table with
  | Some series => nth (index_of m months) series 0
  | None => 0
  end.

Definition entry_of (table : dict string Q) (k : string) : Q :=
  match dict_find k table with Some v => v | None => 0 end.

Definition supply_volume (i m : string) : Q := monthly_volume (flow_of offer_m3s i m) m.
Definition demand_volume (j m : string) : Q := monthly_volume (flow_of demand_m3s j m) m.
Definition canal_capacity (a : Args) (m : string) : Q := monthly_volume (cap_santa_m3s a) m.

Definition adjusted_supply (a : Args) (i m : string) : Q :=
  if String.eqb i "Pozos_Chao" then supply_volume i m * mult_pozos_chao a
  else if String.eqb i "Pozos_Viru" then supply_volume i m * mult_pozos_viru a
  else supply_volume i m.

Definition efficiency (sc j : string) : Q :=
  match dict_find sc efficiencies with
  | Some e => entry_of e j
  | None => 0
  end.

Definition unit_cost (i : string) : Q := entry_of cost_offer_USD_m3 i * 1000000.
Definition unit_value (j : string) : Q := entry_of value_dem_USD_m3 j * 1000000.

Definition sector_weight (a : Args) (j : string) : Q :=
  if str_in j ["PTAP_Trujillo";"PTAP_Chao"] then weight_ptap a
  else if str_in j ["Industria";"Pecuario"] then weight_ind_pec a
  else weight_agro a.

Definition x_var (i j m : string) : LpVariable :=
  {| v_name := x_name i j m; v_lowBound := Some 0; v_upBound := None |}.

Definition u_var (j m : string) : LpVariable :=
  {| v_name := u_name j m; v_lowBound := Some 0; v_upBound := None |}.

Definition x_of_arc (ijm : arc) : LpVariable :=
  x_var (fst (fst ijm)) (snd (fst ijm)) (snd ijm).

Definition balance_constraint (a : Args) (j m : string) : string * LpConstraint :=
  ("Balance_Dem_" ++ j ++ "_" ++ m,
   {| c_lhs := LpAdd (LpScale (efficiency (scenario a) j)
                        (lpSum (map (fun i => LpVar (x_var i j m))
                                    (filter (fun i => valid_arc i j) sources))))
                     (LpVar (u_var j m));
      c_sense := LpConstraintEQ;
      c_rhs := demand_volume j m |}).

Definition supply_constraint (a : Args) (i m : string) : string * LpConstraint :=
  ("Oferta_" ++ i ++ "_" ++ m,
   {| c_lhs := lpSum (map (fun j => LpVar (x_var i j m))
                          (filter (fun j => valid_arc i j) demands));
      c_sense := LpConstraintLE;
      c_rhs := adjusted_supply a i m |}).

Definition canal_constraint (a : Args) (m : string) : string * LpConstraint :=
  ("Cap_Santa_" ++ m,
   {| c_lhs := lpSum (map (fun j => LpVar (x_var "Santa" j m)) demands);
      c_sense := LpConstraintLE;
      c_rhs := canal_capacity a m |}).

Definition zero_deficit_constraint (j m : string) : string * LpConstraint :=
  ("DeficitCero_" ++ j ++ "_" ++ m,
   {| c_lhs := LpVar (u_var j m); c_sense := LpConstraintEQ; c_rhs := 0 |}).

Definition benefit_summand (a : Args) (ijm : arc) : LpExpr :=
  LpScale (efficiency (scenario a) (snd (fst ijm)) * unit_value (snd (fst ijm))
           - unit_cost (fst (fst ijm)))
          (LpVar (x_of_arc ijm)).

Definition penalty_summand (a : Args) (jm : string * string) : LpExpr :=
  LpScale (penalty_usd_hm3 a * sector_weight a (fst jm)) (LpVar (u_var (fst jm) (snd jm))).

Definition benefit_term (a : Args) : LpExpr := lpSum (map (benefit_summand a) arcs).

Definition penalty_term (a : Args) : LpExpr :=
  lpSum (map (penalty_summand a) (for_for demands months)).

Definition objective_expr (a : Args) : LpExpr := LpSub (benefit_term a) (penalty_term a).

Definition chavi_problem (a : Args) : LpProblem :=
  {| p_name := "CHAVI_Optim_Recursos_Hidricos";
     p_sense := LpMaximize;
     p_constraints :=
       (map (fun jm => balance_constraint a (fst jm) (snd jm)) (for_for demands months)
        ++ map (fun im => supply_constraint a (fst im) (snd im)) (for_for sources months)
        ++ map (canal_constraint a) months
        ++ map (fun jm => zero_deficit_constraint (fst jm) (snd jm))
               (for_for priority_demands months))%list;
     p_objective := Some ("Beneficio_Neto", objective_expr a) |}.

Definition chavi_variables : list LpVariable :=
  (map x_of_arc arcs ++ map (fun jm => u_var (fst jm) (snd jm)) (for_for demands months))%list.

Definition chavi_store (a : Args) : Store :=
  {| st_prob := Some (chavi_problem a); st_vars := chavi_variables |}.

Definition chavi_locals (a : Args) : Locals :=
  {| l_x := map (fun ijm => (ijm, x_of_arc ijm)) arcs;
     l_u := map (fun jm => (jm, u_var (fst jm) (snd jm))) (for_for demands months);
     l_eff := match dict_find (scenario a) efficiencies with Some e => e | None => [] end;
     l_cost := map (fun i => (i, unit_cost i)) sources;
     l_value := map (fun j => (j, unit_value j)) demands;
     l_weight := map (fun j => (j, sector_weight a j)) demands |}.

(** The totals of the breakdown, as sums over the arcs and over the
    (demand, month) pairs. *)
Definition x_value (sol : Solution) (ijm : arc) : Q :=
  value_or_zero (varValue sol (v_name (x_of_arc ijm))).

Definition u_value (sol : Solution) (jm : string * string) : Q :=
  value_or_zero (varValue sol (v_name (u_var (fst jm) (snd jm)))).

Definition benefit_total (a : Args) (sol : Solution) : Q :=
  fold_left
    (fun acc ijm =>
       acc + efficiency (scenario a) (snd (fst ijm)) * unit_value (snd (fst ijm))
             * x_value sol ijm)
    arcs 0.0.

Definition cost_total (sol : Solution) : Q :=
  fold_left (fun acc ijm => acc + unit_cost (fst (fst ijm)) * x_value sol ijm) arcs 0.0.

Definition penalty_total (a : Args) (sol : Solution) : Q :=
  py_sum (map (fun jm => penalty_usd_hm3 a * sector_weight a (fst jm) * u_value sol jm)
              (for_for demands months)).

Definition chavi_result (a : Args) (sol : Solution) : Result :=
  {| r_status := LpStatus (sol_status sol);
     r_objective := lp_value sol (objective_expr a);
     r_benefit_total := benefit_total a sol;
     r_cost_total := cost_total sol;
     r_penalty_total := penalty_total a sol |}.

(** The store when the scenario lookup fails: the problem object without
    constraints or objective, and every variable. *)
Definition declared_store : Store :=
  {| st_prob := Some {| p_name := "CHAVI_Optim_Recursos_Hidricos"; p_sense := LpMaximize;
                        p_constraints := []; p_objective := None |};
     st_vars := chavi_variables |}.

(* ================================================================== *)
(** ** Assignments, sums and feasibility *)

(** The sum of [f k] for [k] in [l]. *)
Fixpoint sum_over {A : Type} (l : list A) (f : A -> Q) : Q :=
  match l with
  | [] => 0
  | k :: l' => f k + sum_over l' f
  end.

(** The total allocated to demand [j] in month [m], over the sources with
    a valid arc into [j]. *)
Definition inflow (val : string -> Q) (j m : string) : Q :=
  sum_over (filter (fun i => valid_arc i j) sources) (fun i => val (x_name i j m)).

(** The total released by source [i] in month [m], over the demands with a
    valid arc out of [i]. *)
Definition outflow (val : string -> Q) (i m : string) : Q :=
  sum_over (filter (fun j => valid_arc i j) demands) (fun j => val (x_name i j m)).

(** An assignment is feasible for a store when every variable is within
    its bounds and every constraint of the problem holds. *)
Definition feasible (val : string -> Q) (st : Store) : Prop :=
  (forall v, In v (st_vars st) -> in_bounds val v) /\
  (forall p nc, st_prob st = Some p -> In nc (p_constraints p) -> holds val (snd nc)).

(** The solved values as an assignment, an absent value being 0. *)
Definition solved_values (sol : Solution) : string -> Q :=
  fun n => value_or_zero (varValue sol n).

(** Membership in the allowed arcs, by the three rules. *)
Definition arc_rule (ijm : arc) : Prop :=
  let i := fst (fst ijm) in
  let j := snd (fst ijm) in
  let m := snd ijm in
  In m months /\
  ((i = "Santa" /\ In j demands)
   \/ (In i chao_sources /\ j = "Chao")
   \/ (In i viru_sources /\ j = "Viru")).

(** A PuLP in which every constructor succeeds and the solve leaves the
    problem unsolved, and one whose solve assigns 1 to every variable. *)
Definition idle_env : PulpEnv :=
  {| ctor_raises := fun _ => false;
     lp_solve := fun _ _ =>
       inr {| sol_status := LpStatusNotSolved; varValue := fun _ => None |} |}.

Definition ones_solution : Solution :=
  {| sol_status := LpStatusUndefined; varValue := fun _ => Some 1 |}.

Definition ones_env : PulpEnv :=
  {| ctor_raises := fun _ => true; lp_solve := fun _ _ => inr ones_solution |}.

Definition with_scenario (sc : string) (a : Args) : Args :=
  {| scenario := sc;
     mult_pozos_chao := mult_pozos_chao a; mult_pozos_viru := mult_pozos_viru a;
     penalty_usd_hm3 := penalty_usd_hm3 a;
     weight_ptap := weight_ptap a; weight_ind_pec := weight_ind_pec a;
     weight_agro := weight_agro a; cap_santa_m3s := cap_santa_m3s a;
     solver_name := solver_name a; solver_time_limit := solver_time_limit a;
     solver_msg := solver_msg a |}.

(** Boolean versions of [holds], [in_bounds] and [feasible]. *)
Definition holds_b (val : string -> Q) (c : LpConstraint) : bool :=
  match c_sense c with
  | LpConstraintLE => Qle_bool (lp_eval val (c_lhs c)) (c_rhs c)
  | LpConstraintEQ => Qeq_bool (lp_eval val (c_lhs c)) (c_rhs c)
  | LpConstraintGE => Qle_bool (c_rhs c) (lp_eval val (c_lhs c))
  end.

Definition in_bounds_b (val : string -> Q) (v : LpVariable) : bool :=
  match v_lowBound v with Some l => Qle_bool l (val (v_name v)) | None => true end
  && match v_upBound v with Some h => Qle_bool (val (v_name v)) h | None => true end.

Definition feasible_b (val : string -> Q) (st : Store) : bool :=
  forallb (in_bounds_b val) (st_vars st)
  && match st_prob st with
     | Some p => forallb (fun nc => holds_b val (snd nc)) (p_constraints p)
     | None => true
     end.

(** An assignment that serves the four priority demands from Santa and
    leaves every other demand unserved. *)
Definition baseline_values : dict string Q :=
  (map (fun jm => (x_name "Santa" (fst jm) (snd jm), demand_volume (fst jm) (snd jm)))
       (for_for priority_demands months)
   ++ map (fun jm => (u_name (fst jm) (snd jm), demand_volume (fst jm) (snd jm)))
          (for_for ["Chao"; "Viru"; "S1"; "S2"; "S3"; "S4"] months))%list.

Definition baseline (n : string) : Q := entry_of baseline_values n.

(** No string occurs twice. *)
Fixpoint distinct_b (l : list string) : bool :=
  match l with
  | [] => true
  | s :: l' => negb (str_in s l') && distinct_b l'
  end.

(* ================================================================== *)
(** ** Further notions for the properties of the model *)

(** The value of the objective of the problem in a store. *)
Definition objective_value (val : string -> Q) (st : Store) : Q :=
  match st_prob st with
  | Some p =>
      match p_objective p with
      | Some ne => lp_eval val (snd ne)
      | None => 0
      end
  | None => 0
  end.

(** The allocations of an assignment scaled, demand by demand, by the ratio
    of the efficiencies of two scenarios; the deficits are left as they
    are. *)
Definition efficiency_ratio (sc sc' j : string) : Q := efficiency sc j / efficiency sc' j.

Definition ratio_table (sc sc' : string) : dict string Q :=
  map (fun ijm : arc => (v_name (x_of_arc ijm), efficiency_ratio sc sc' (snd (fst ijm)))) arcs.

Definition rescaled (sc sc' : string) (val : string -> Q) : string -> Q :=
  fun n =>
    match dict_find n (ratio_table sc sc') with
    | Some r => val n * r
    | None => val n
    end.

(* ================================================================== *)
(** ** Result rows and summary (lines 223-267) *)

(** [round(q, ndigits)] for [ndigits >= 0]: the nearest multiple of
    [10^-ndigits], a tie going to the even one. *)
Definition round_half_even (t : Q) : Z :=
  let f := Qfloor t in
  match Qcompare (t - inject_Z f) (1 # 2) with
  | Lt => f
  | Gt => (f + 1)%Z
  | Eq => if Z.even f then f else (f + 1)%Z
  end.

Definition pow10 (n : nat) : Q := inject_Z (10 ^ Z.of_nat n).

Definition py_round (q : Q) (ndigits : nat) : Q :=
  inject_Z (round_half_even (q * pow10 ndigits)) / pow10 ndigits.

Record AllocRow : Type := {
  a_month : string;
  a_source : string;
  a_demand : string;
  a_x_hm3 : Q;
  a_delivered_hm3 : Q;
  a_cost_USD : Q;
  a_benefit_USD : Q
}.

Record DeficitRow : Type := {
  d_demand : string;
  d_month : string;
  d_deficit_hm3 : Q
}.

(** [objective_USD] is [None] for the float nan. *)
Record Summary : Type := {
  s_status : string;
  s_objective_USD : option Q;
  s_benefit_USD : Q;
  s_cost_USD : Q;
  s_penalty_USD : Q;
  s_scenario : string;
  s_mult_pozos_chao : Q;
  s_mult_pozos_viru : Q;
  s_cap_santa_m3s : Q;
  s_penalty_usd_hm3 : Q;
  s_deficits_hm3_by_month : dict string Q
}.

(** The dictionary that [build_and_solve] returns. *)
Record Output : Type := {
  o_status : string;
  o_objective : option Q;
  o_benefit_total : Q;
  o_cost_total : Q;
  o_penalty_total : Q;
  o_alloc_rows : list AllocRow;
  o_deficit_rows : list DeficitRow;
  o_summary : Summary
}.

(** Lines 224-234. *)
Definition alloc_rows (loc : Locals) (sol : Solution) : M (list AllocRow) :=
  mapM (fun kv : arc * LpVariable =>
          let i := fst (fst (fst kv)) in
          let j := snd (fst (fst kv)) in
          let m := snd (fst kv) in
          let xv := value_or_zero (varValue sol (v_name (snd kv))) in
          e <- dict_get j (l_eff loc) ;;
          let delivered := e * xv in
          c <- dict_get i (l_cost loc) ;;
          v <- dict_get j (l_value loc) ;;
          ret {| a_month := m; a_source := i; a_demand := j;
                 a_x_hm3 := py_round xv 6;
                 a_delivered_hm3 := py_round delivered 6;
                 a_cost_USD := py_round (c * xv) 2;
                 a_benefit_USD := py_round (v * delivered) 2 |})
       (l_x loc).

(** Lines 236-242: the deficit rows and the deficit of each month. *)
Definition deficit_rows (loc : Locals) (sol : Solution)
  : M (list DeficitRow * dict string Q) :=
  let deficits_by_month : dict string Q :=
    fold_left (fun d m => dict_set m 0.0 d) months [] in
  foldM (fun (acc : list DeficitRow * dict string Q) (jm : string * string) =>
           let j := fst jm in
           let m := snd jm in
           ujm <- dict_get (j, m) (l_u loc) ;;
           let uv := value_or_zero (varValue sol (v_name ujm)) in
           old <- dict_get m (snd acc) ;;
           ret ((fst acc ++ [ {| d_demand := j; d_month := m;
                                 d_deficit_hm3 := py_round uv 6 |} ])%list,
                dict_set m (old + uv) (snd acc)))
        (for_for demands months) ([], deficits_by_month).

(** Lines 244-256. *)
Definition summary (a : Args) (status : string) (obj : option Q) (bcp : Q * Q * Q)
    (deficits_by_month : dict string Q) : M Summary :=
  by_month <- dict_comp (fun m => d <- dict_get m deficits_by_month ;; ret (m, py_round d 6))
                        months ;;
  ret {| s_status := status;
         s_objective_USD := match obj with Some o => Some (py_round o 2) | None => None end;
         s_benefit_USD := py_round (fst (fst bcp)) 2;
         s_cost_USD := py_round (snd (fst bcp)) 2;
         s_penalty_USD := py_round (snd bcp) 2;
         s_scenario := scenario a;
         s_mult_pozos_chao := mult_pozos_chao a;
         s_mult_pozos_viru := mult_pozos_viru a;
         s_cap_santa_m3s := cap_santa_m3s a;
         s_penalty_usd_hm3 := penalty_usd_hm3 a;
         s_deficits_hm3_by_month := by_month |}.

(** The whole of [build_and_solve], with the rows and the summary. *)
Definition build_and_solve_output_M (env : PulpEnv) (a : Args) : M Output :=
  loc <- build_model a ;;
  sol <- solve env (choose_solver env a) ;;
  prob <- get_prob ;;
  let status := LpStatus (sol_status sol) in
  let obj := match p_objective prob with
             | Some ne => lp_value sol (snd ne)
             | None => None
             end in
  bcp <- breakdown a loc sol ;;
  rows <- alloc_rows loc sol ;;
  dd <- deficit_rows loc sol ;;
  sm <- summary a status obj bcp (snd dd) ;;
  ret {| o_status := status; o_objective := obj;
         o_benefit_total := fst (fst bcp); o_cost_total := snd (fst bcp);
         o_penalty_total := snd bcp;
         o_alloc_rows := rows; o_deficit_rows := fst dd; o_summary := sm |}.

Definition build_and_solve_output (env : PulpEnv) (a : Args) : Store * (exn + Output) :=
  build_and_solve_output_M env a empty_store.

(** The rows and the summary as functions of the solved values. *)
Definition alloc_row_of (a : Args) (sol : Solution) (ijm : arc) : AllocRow :=
  let i := fst (fst ijm) in
  let j := snd (fst ijm) in
  let xv := x_value sol ijm in
  {| a_month := snd ijm; a_source := i; a_demand := j;
     a_x_hm3 := py_round xv 6;
     a_delivered_hm3 := py_round (efficiency (scenario a) j * xv) 6;
     a_cost_USD := py_round (unit_cost i * xv) 2;
     a_benefit_USD := py_round (unit_value j * (efficiency (scenario a) j * xv)) 2 |}.

Definition deficit_row_of (sol : Solution) (jm : string * string) : DeficitRow :=
  {| d_demand := fst jm; d_month := snd jm; d_deficit_hm3 := py_round (u_value sol jm) 6 |}.

Definition month_deficit (sol : Solution) (m : string) : Q :=
  fold_left (fun acc j => acc + u_value sol (j, m)) demands 0.0.

Definition chavi_summary (a : Args) (sol : Solution) : Summary :=
  {| s_status := LpStatus (sol_status sol);
     s_objective_USD := match lp_value sol (objective_expr a) with
                        | Some o => Some (py_round o 2)
                        | None => None
                        end;
     s_benefit_USD := py_round (benefit_total a sol) 2;
     s_cost_USD := py_round (cost_total sol) 2;
     s_penalty_USD := py_round (penalty_total a sol) 2;
     s_scenario := scenario a;
     s_mult_pozos_chao := mult_pozos_chao a;
     s_mult_pozos_viru := mult_pozos_viru a;
     s_cap_santa_m3s := cap_santa_m3s a;
     s_penalty_usd_hm3 := penalty_usd_hm3 a;
     s_deficits_hm3_by_month := map (fun m => (m, py_round (month_deficit sol m) 6)) months |}.

Definition chavi_output (a : Args) (sol : Solution) : Output :=
  {| o_status := LpStatus (sol_status sol);
     o_objective := lp_value sol (objective_expr a);
     o_benefit_total := benefit_total a sol;
     o_cost_total := cost_total sol;
     o_penalty_total := penalty_total a sol;
     o_alloc_rows := map (alloc_row_of a sol) arcs;
     o_deficit_rows := map (deficit_row_of sol) (for_for demands months);
     o_summary := chavi_summary a sol |}.

(* ================================================================== *)
(** ** Solver names and further inputs *)

(** A name written without regard to case: [caseless_match t s] holds when
    [s] spells the lower-case name [t] with each letter small or capital,
    the letter k also as the Kelvin sign. *)
Definition ascii_upper (d : ascii) : ascii :=
  let n := nat_of_ascii d in
  if (97 <=? n)%nat && (n <=? 122)%nat then ascii_of_nat (n - 32) else d.

Fixpoint caseless_match (t s : string) : bool :=
  match t, s with
  | EmptyString, EmptyString => true
  | String d t', String c s' =>
      ((Ascii.eqb c d || Ascii.eqb c (ascii_upper d)) && caseless_match t' s')
      || (Ascii.eqb d "k" &&
          match s' with
          | String c2 (String c3 s3) => is_kelvin c c2 c3 && caseless_match t' s3
          | _ => false
          end)
  | _, _ => false
  end.

(** ASCII characters other than the capital letters, and the names made
    of them. *)
Definition plain_char (d : ascii) : bool :=
  let n := nat_of_ascii d in
  (n <? 128)%nat && negb ((65 <=? n)%nat && (n <=? 90)%nat).

Fixpoint plain (t : string) : bool :=
  match t with
  | EmptyString => true
  | String d t' => plain_char d && plain t'
  end.

(** The Kelvin sign U+212A. *)
Definition kelvin_sign : string :=
  String "226" (String "132" (String "170" EmptyString)).

(** The arguments with another solver name. *)
Definition with_solver_name (n : option string) (a : Args) : Args :=
  {| scenario := scenario a;
     mult_pozos_chao := mult_pozos_chao a; mult_pozos_viru := mult_pozos_viru a;
     penalty_usd_hm3 := penalty_usd_hm3 a;
     weight_ptap := weight_ptap a; weight_ind_pec := weight_ind_pec a;
     weight_agro := weight_agro a; cap_santa_m3s := cap_santa_m3s a;
     solver_name := n; solver_time_limit := solver_time_limit a;
     solver_msg := solver_msg a |}.

(** A solve that returns the baseline assignment. *)
Definition baseline_solution : Solution :=
  {| sol_status := LpStatusOptimal; varValue := fun n => Some (baseline n) |}.

Definition baseline_env : PulpEnv :=
  {| ctor_raises := fun _ => false; lp_solve := fun _ _ => inr baseline_solution |}.

(** A PuLP whose constructors succeed and in which GLPK cannot be run:
    [GLPK_CMD.actualSolve] raises when the program glpsol is not there,
    the other solvers leave the problem unsolved. *)
Definition glpk_missing_env : PulpEnv :=
  {| ctor_raises := fun _ => false;
     lp_solve := fun s _ =>
       match s with
       | Some (GLPK_CMD _ _) => inl (PulpSolverError "PuLP: cannot execute glpsol")
       | _ => inr {| sol_status := LpStatusNotSolved; varValue := fun _ => None |}
       end |}.

(** The default arguments with more water: both well multipliers and the
    canal capacity raised. *)
Definition raised_args : Args :=
  {| scenario := "S1"; mult_pozos_chao := 1.5; mult_pozos_viru := 1.2;
     penalty_usd_hm3 := 100000000; weight_ptap := 100.0; weight_ind_pec := 50.0;
     weight_agro := 1.0; cap_santa_m3s := 100.0;
     solver_name := Some "cbc"; solver_time_limit := None; solver_msg := false |}.


(** The baseline with, in addition, 1 hm3 from Santa to Chao and 1 hm3
    from Santa to S1 in January; the deficits of Chao and S1 in January
    are what the deliveries under S1 (0.30 and 0.89 of the allocation)
    leave. *)
Definition served_values : dict string Q :=
  ([ (x_name "Santa" "Chao" "Ene", 1);
     (u_name "Chao" "Ene", demand_volume "Chao" "Ene" - efficiency "S1" "Chao" * 1);
     (x_name "Santa" "S1" "Ene", 1);
     (u_name "S1" "Ene", demand_volume "S1" "Ene" - efficiency "S1" "S1" * 1) ]
   ++ baseline_values)%list.

Definition served (n : string) : Q := entry_of served_values n.

(** A bound on the objective: each allocation at the supply limit of its
    source with the size of its margin, each deficit at the demand with
    the size of its penalty. *)
Definition objective_bound (a : Args) : Q :=
  sum_over arcs
    (fun ijm =>
       Qabs (efficiency (scenario a) (snd (fst ijm)) * unit_value (snd (fst ijm))
             - unit_cost (fst (fst ijm)))
       * adjusted_supply a (fst (fst ijm)) (snd ijm))
  + sum_over (for_for demands months)
      (fun jm => Qabs (penalty_usd_hm3 a * sector_weight a (fst jm))
                 * demand_volume (fst jm) (snd jm)).

(** Case analysis on a month of the list. *)
Ltac each_month H := cbv [months In] in H; repeat (destruct H as [<- | H]); try contradiction.

(* ================================================================== *)
(** ** What [build_model] builds *)

Lemma build_model_recognised (a : Args) :
  recognised (scenario a) ->
  build_model a empty_store = (chavi_store a, inr (chavi_locals a)).
Proof.
  destruct a as [sc mc mv pen wp wi wa cap sn tl msg]; unfold recognised; simpl.
  intros [-> | ->].
  - cbv -[Qplus Qmult Qminus Qdiv Qopp inject_Z]. reflexivity.
  - cbv -[Qplus Qmult Qminus Qdiv Qopp inject_Z]. reflexivity.
Qed.

Lemma efficiencies_unrecognised (sc : string) :
  ~ recognised sc -> dict_find sc efficiencies = None.
Proof.
  intros H. unfold efficiencies, dict_find, key_eqb, PyKey_string.
  destruct (String.eqb sc "S1") eqn:E1.
  - apply String.eqb_eq in E1. exfalso. apply H. left. exact E1.
  - destruct (String.eqb sc "S2") eqn:E2.
    + apply String.eqb_eq in E2. exfalso. apply H. right. exact E2.
    + reflexivity.
Qed.

Lemma efficiencies_found (sc : string) (e : dict string Q) :
  dict_find sc efficiencies = Some e -> recognised sc.
Proof.
  unfold efficiencies, dict_find, key_eqb, PyKey_string.
  destruct (String.eqb sc "S1") eqn:E1.
  - intros _. left. apply String.eqb_eq. exact E1.
  - destruct (String.eqb sc "S2") eqn:E2.
    + intros _. right. apply String.eqb_eq. exact E2.
    + discriminate.
Qed.

Lemma recognised_dec (sc : string) : {recognised sc} + {~ recognised sc}.
Proof.
  destruct (dict_find sc efficiencies) as [e |] eqn:E.
  - left. exact (efficiencies_found sc e E).
  - right. intros H. destruct H as [-> | ->]; discriminate E.
Qed.

Lemma build_model_unrecognised (a : Args) :
  ~ recognised (scenario a) ->
  build_model a empty_store = (declared_store, inl (KeyError [scenario a])).
Proof.
  intros H. apply efficiencies_unrecognised in H.
  unfold build_model.
  change (dict_get (scenario a) efficiencies)
    with (match dict_find (scenario a) efficiencies with
          | Some v => ret v
          | None => raise (KeyError (key_repr (scenario a)))
          end).
  rewrite H.
  destruct a as [sc mc mv pen wp wi wa cap sn tl msg]; simpl scenario.
  cbv -[Qplus Qmult Qminus Qdiv Qopp inject_Z]. reflexivity.
Qed.

Lemma breakdown_recognised (a : Args) (sol : Solution) (s : Store) :
  recognised (scenario a) ->
  breakdown a (chavi_locals a) sol s
  = (s, inr (benefit_total a sol, cost_total sol, penalty_total a sol)).
Proof.
  destruct a as [sc mc mv pen wp wi wa cap sn tl msg]; unfold recognised; simpl.
  intros [-> | ->].
  - cbv -[Qplus Qmult Qminus Qdiv Qopp inject_Z value_or_zero]. reflexivity.
  - cbv -[Qplus Qmult Qminus Qdiv Qopp inject_Z value_or_zero]. reflexivity.
Qed.

(** The whole call, for a recognised scenario: the store is the CHAVI
    problem and its variables, and the outcome is that of the one solve. *)
Lemma build_and_solve_recognised (env : PulpEnv) (a : Args) :
  recognised (scenario a) ->
  build_and_solve env a
  = (chavi_store a,
     match lp_solve env (choose_solver env a) (chavi_problem a) with
     | inl e => inl e
     | inr sol => inr (chavi_result a sol)
     end).
Proof.
  intros H. unfold build_and_solve, build_and_solve_M, bind.
  rewrite (build_model_recognised a H).
  unfold solve, get_prob, bind.
  change (st_prob (chavi_store a)) with (Some (chavi_problem a)).
  cbv iota beta.
  destruct (lp_solve env (choose_solver env a) (chavi_problem a)) as [e | sol].
  - reflexivity.
  - unfold ret at 1. cbv iota beta.
    change (st_prob (chavi_store a)) with (Some (chavi_problem a)).
    cbv iota beta.
    rewrite (breakdown_recognised a sol (chavi_store a) H).
    reflexivity.
Qed.

Lemma build_and_solve_unrecognised (env : PulpEnv) (a : Args) :
  ~ recognised (scenario a) ->
  build_and_solve env a = (declared_store, inl (KeyError [scenario a])).
Proof.
  intros H. unfold build_and_solve, build_and_solve_M, bind.
  rewrite (build_model_unrecognised a H). reflexivity.
Qed.
(* ================================================================== *)
(** ** Lists, sums and expressions *)

Lemma in_for_for {A B : Type} (l1 : list A) (l2 : list B) (a : A) (b : B) :
  In (a, b) (for_for l1 l2) <-> In a l1 /\ In b l2.
Proof.
  unfold for_for. rewrite in_flat_map. split.
  - intros [a' [Ha Hb]]. apply in_map_iff in Hb. destruct Hb as [b' [E Hb]].
    inversion E; subst. split; assumption.
  - intros [Ha Hb]. exists a. split; [assumption |].
    apply in_map_iff. exists b. split; [reflexivity | assumption].
Qed.

Lemma lp_eval_lpSum {A : Type} (val : string -> Q) (f : A -> LpExpr) (l : list A) :
  lp_eval val (lpSum (map f l)) = sum_over l (fun k => lp_eval val (f k)).
Proof.
  induction l as [| k l IH]; simpl.
  - reflexivity.
  - simpl in IH. rewrite IH. reflexivity.
Qed.

Lemma sum_over_ext {A : Type} (l : list A) (f g : A -> Q) :
  (forall k, In k l -> f k == g k) -> sum_over l f == sum_over l g.
Proof.
  induction l as [| k l IH]; intros H; simpl.
  - reflexivity.
  - rewrite (H k (or_introl eq_refl)). rewrite IH.
    + reflexivity.
    + intros k' Hk'. apply H. right. exact Hk'.
Qed.

Lemma sum_over_minus {A : Type} (l : list A) (f g : A -> Q) :
  sum_over l (fun k => f k - g k) == sum_over l f - sum_over l g.
Proof.
  induction l as [| k l IH]; simpl.
  - ring.
  - rewrite IH. ring.
Qed.

Lemma fold_left_sum {A : Type} (l : list A) (f : A -> Q) (acc : Q) :
  fold_left (fun s k => s + f k) l acc == acc + sum_over l f.
Proof.
  revert acc. induction l as [| k l IH]; intros acc; simpl.
  - ring.
  - rewrite IH. ring.
Qed.

Lemma py_sum_map {A : Type} (l : list A) (f : A -> Q) :
  py_sum (map f l) == sum_over l f.
Proof.
  unfold py_sum.
  assert (G : forall acc, fold_left Qplus (map f l) acc == acc + sum_over l f).
  { induction l as [| k l IH]; intros acc; simpl.
    - ring.
    - rewrite IH. ring. }
  rewrite G. ring.
Qed.

Lemma str_in_In (s : string) (l : list string) : str_in s l = true <-> In s l.
Proof.
  induction l as [| t l IH]; cbn [str_in In].
  - split; [discriminate | intros []].
  - rewrite orb_true_iff, String.eqb_eq, IH. split.
    + intros [-> | H]; [left; reflexivity | right; exact H].
    + intros [-> | H]; [left; reflexivity | right; exact H].
Qed.

Lemma distinct_b_NoDup (l : list string) : distinct_b l = true -> NoDup l.
Proof.
  induction l as [| s l IH]; cbn [distinct_b]; intros H.
  - constructor.
  - apply andb_true_iff in H. destruct H as [Hs Hl]. constructor.
    + intros Hin. apply str_in_In in Hin. rewrite Hin in Hs. discriminate Hs.
    + exact (IH Hl).
Qed.

Lemma value_or_zero_Some (q : Q) : value_or_zero (Some q) == q.
Proof.
  unfold value_or_zero. destruct (Qeq_bool q 0) eqn:E.
  - apply Qeq_bool_iff in E. symmetry. exact E.
  - reflexivity.
Qed.

(** When [pl.value] gives a number, it is the value of the expression
    under the solved values. *)
Lemma lp_value_eval (sol : Solution) (e : LpExpr) :
  forall q, lp_value sol e = Some q -> q == lp_eval (solved_values sol) e.
Proof.
  revert e. fix IH 1. intros e.
  destruct e as [v | c | terms | c e | e1 e2 | e1 e2]; intros q H.
  - cbn [lp_value] in H. cbn [lp_eval]. unfold solved_values. rewrite H.
    symmetry. apply value_or_zero_Some.
  - cbn [lp_value] in H. inversion H. reflexivity.
  - cbn [lp_value] in H. cbn [lp_eval]. revert q H.
    induction terms as [| t terms IHt]; intros q H.
    + inversion H. reflexivity.
    + destruct (lp_value sol t) as [qa |] eqn:Ea; [| discriminate H].
      match type of H with
      | match ?s with _ => _ end = _ => destruct s as [qb |] eqn:Eb; [| discriminate H]
      end.
      inversion H. rewrite (IH t qa Ea), (IHt qb eq_refl). reflexivity.
  - cbn [lp_value] in H. cbn [lp_eval].
    destruct (Qeq_bool c 0) eqn:Ec.
    + apply Qeq_bool_iff in Ec. inversion H. rewrite Ec. ring.
    + destruct (lp_value sol e) as [qa |] eqn:Ea; [| discriminate H].
      inversion H. rewrite (IH e qa Ea). reflexivity.
  - cbn [lp_value] in H. cbn [lp_eval].
    destruct (lp_value sol e1) as [qa |] eqn:Ea; [| discriminate H].
    destruct (lp_value sol e2) as [qb |] eqn:Eb; [| discriminate H].
    inversion H. rewrite (IH e1 qa Ea), (IH e2 qb Eb). reflexivity.
  - cbn [lp_value] in H. cbn [lp_eval].
    destruct (lp_value sol e1) as [qa |] eqn:Ea; [| discriminate H].
    destruct (lp_value sol e2) as [qb |] eqn:Eb; [| discriminate H].
    inversion H. rewrite (IH e1 qa Ea), (IH e2 qb Eb). reflexivity.
Qed.

(** The constraints of the CHAVI problem, by family. *)
Lemma in_balance (a : Args) (j m : string) :
  In j demands -> In m months ->
  In (balance_constraint a j m) (p_constraints (chavi_problem a)).
Proof.
  intros Hj Hm. unfold chavi_problem; cbn [p_constraints]. apply in_or_app. left.
  apply in_map_iff. exists (j, m). split; [reflexivity |].
  apply in_for_for. split; assumption.
Qed.

Lemma in_supply (a : Args) (i m : string) :
  In i sources -> In m months ->
  In (supply_constraint a i m) (p_constraints (chavi_problem a)).
Proof.
  intros Hi Hm. unfold chavi_problem; cbn [p_constraints]. apply in_or_app. right. apply in_or_app. left.
  apply in_map_iff. exists (i, m). split; [reflexivity |].
  apply in_for_for. split; assumption.
Qed.

Lemma in_canal (a : Args) (m : string) :
  In m months ->
  In (canal_constraint a m) (p_constraints (chavi_problem a)).
Proof.
  intros Hm. unfold chavi_problem; cbn [p_constraints]. apply in_or_app. right. apply in_or_app. right.
  apply in_or_app. left. apply in_map. exact Hm.
Qed.

Lemma in_zero_deficit (a : Args) (j m : string) :
  In j priority_demands -> In m months ->
  In (zero_deficit_constraint j m) (p_constraints (chavi_problem a)).
Proof.
  intros Hj Hm. unfold chavi_problem; cbn [p_constraints]. apply in_or_app. right. apply in_or_app. right.
  apply in_or_app. right.
  apply in_map_iff. exists (j, m). split; [reflexivity |].
  apply in_for_for. split; assumption.
Qed.

Lemma feasible_holds (val : string -> Q) (a : Args) (nc : string * LpConstraint) :
  feasible val (chavi_store a) ->
  In nc (p_constraints (chavi_problem a)) -> holds val (snd nc).
Proof.
  intros [_ H] Hin. exact (H (chavi_problem a) nc eq_refl Hin).
Qed.

Lemma store_recognised (env : PulpEnv) (a : Args) :
  recognised (scenario a) -> fst (build_and_solve env a) = chavi_store a.
Proof.
  intros H. rewrite (build_and_solve_recognised env a H). reflexivity.
Qed.

Lemma holds_balance (val : string -> Q) (a : Args) (j m : string) :
  holds val (snd (balance_constraint a j m)) <->
  inflow val j m * efficiency (scenario a) j + val (u_name j m) == demand_volume j m.
Proof.
  unfold holds, balance_constraint, inflow. cbn [snd c_sense c_lhs c_rhs].
  cbn [lp_eval]. fold (lp_eval val).
  change ((fix sum (l : list LpExpr) : Q :=
             match l with
             | [] => 0
             | t :: l' => lp_eval val t + sum l'
             end)
            (map (fun i => LpVar (x_var i j m)) (filter (fun i => valid_arc i j) sources)))
    with (lp_eval val (lpSum (map (fun i => LpVar (x_var i j m))
                                  (filter (fun i => valid_arc i j) sources)))).
  rewrite lp_eval_lpSum. cbn [lp_eval x_var u_var v_name].
  rewrite (Qmult_comm (efficiency (scenario a) j)). reflexivity.
Qed.

(** C1. For a recognised scenario, every demand [j] and every month [m],
    the problem holds an equality constraint that says: the allocations
    into [j] over the sources with a valid arc, times the scenario's
    efficiency for [j], plus [u(j,m)], equal the converted demand volume.
    In a feasible assignment the deficit is therefore the converted
    demand minus what is delivered. *)
Theorem demand_balance_is_equality (env : PulpEnv) (a : Args) (j m : string) :
  recognised (scenario a) -> In j demands -> In m months ->
  let st := fst (build_and_solve env a) in
  exists p name c,
    st_prob st = Some p /\ In (name, c) (p_constraints p) /\
    c_sense c = LpConstraintEQ /\
    (forall val, holds val c <->
       inflow val j m * efficiency (scenario a) j + val (u_name j m) == demand_volume j m) /\
    (forall val, feasible val st ->
       val (u_name j m) == demand_volume j m - efficiency (scenario a) j * inflow val j m).
Proof.
  intros Hsc Hj Hm st. subst st. rewrite (store_recognised env a Hsc).
  exists (chavi_problem a), (fst (balance_constraint a j m)), (snd (balance_constraint a j m)).
  split; [reflexivity |]. split.
  - rewrite <- surjective_pairing. apply in_balance; assumption.
  - split; [reflexivity |]. split.
    + intros val. apply holds_balance.
    + intros val Hf.
      assert (Hh := feasible_holds val a _ Hf (in_balance a j m Hj Hm)).
      apply holds_balance in Hh. rewrite <- Hh. ring.
Qed.

Lemma demand_balance_is_equality_witness :
  recognised (scenario default_args) /\ In "Chao" demands /\ In "Ene" months /\
  exists p name c,
    st_prob (fst (build_and_solve idle_env default_args)) = Some p /\
    In (name, c) (p_constraints p) /\
    c_sense c = LpConstraintEQ /\
    (forall val, holds val c <->
       inflow val "Chao" "Ene" * efficiency (scenario default_args) "Chao"
       + val (u_name "Chao" "Ene") == demand_volume "Chao" "Ene") /\
    (forall val, feasible val (fst (build_and_solve idle_env default_args)) ->
       val (u_name "Chao" "Ene")
       == demand_volume "Chao" "Ene"
          - efficiency (scenario default_args) "Chao" * inflow val "Chao" "Ene").
Proof.
  assert (Hsc : recognised (scenario default_args)) by (left; reflexivity).
  assert (Hj : In "Chao" demands) by (left; reflexivity).
  assert (Hm : In "Ene" months) by (left; reflexivity).
  split; [exact Hsc |]. split; [exact Hj |]. split; [exact Hm |].
  exact (demand_balance_is_equality idle_env default_args "Chao" "Ene" Hsc Hj Hm).
Defined.

Lemma holds_supply (val : string -> Q) (a : Args) (i m : string) :
  holds val (snd (supply_constraint a i m)) <->
  outflow val i m <= adjusted_supply a i m.
Proof.
  unfold holds, supply_constraint, outflow. cbn [snd c_sense c_lhs c_rhs].
  rewrite lp_eval_lpSum. cbn [lp_eval x_var v_name]. reflexivity.
Qed.

Lemma holds_canal (val : string -> Q) (a : Args) (m : string) :
  holds val (snd (canal_constraint a m)) <->
  outflow val "Santa" m <= canal_capacity a m.
Proof.
  unfold holds, canal_constraint, outflow. cbn [snd c_sense c_lhs c_rhs].
  rewrite lp_eval_lpSum. cbn [lp_eval x_var v_name]. reflexivity.
Qed.

Lemma holds_zero_deficit (val : string -> Q) (j m : string) :
  holds val (snd (zero_deficit_constraint j m)) <-> val (u_name j m) == 0.
Proof.
  unfold holds, zero_deficit_constraint. cbn [snd c_sense c_lhs c_rhs lp_eval u_var v_name].
  reflexivity.
Qed.

Lemma outflow_santa (val : string -> Q) (m : string) :
  outflow val "Santa" m = sum_over demands (fun j => val (x_name "Santa" j m)).
Proof. reflexivity. Qed.

Lemma adjusted_supply_santa (a : Args) (m : string) :
  adjusted_supply a "Santa" m = supply_volume "Santa" m.
Proof. reflexivity. Qed.

Lemma holds_canal_santa (val : string -> Q) (a : Args) (m : string) :
  holds val (snd (canal_constraint a m)) <->
  sum_over demands (fun j => val (x_name "Santa" j m))
  <= cap_santa_m3s a * inject_Z (seconds_in_month m) / 1000000.
Proof. rewrite holds_canal, outflow_santa. reflexivity. Qed.

Lemma holds_supply_santa (val : string -> Q) (a : Args) (m : string) :
  holds val (snd (supply_constraint a "Santa" m)) <->
  sum_over demands (fun j => val (x_name "Santa" j m)) <= supply_volume "Santa" m.
Proof. rewrite holds_supply, outflow_santa, adjusted_supply_santa. reflexivity. Qed.

(** Every [<=] constraint of the problem is a supply constraint of some
    source or a canal constraint. *)
Lemma le_constraints (a : Args) (nc : string * LpConstraint) :
  In nc (p_constraints (chavi_problem a)) ->
  c_sense (snd nc) = LpConstraintLE ->
  (exists i m, In i sources /\ In m months /\ nc = supply_constraint a i m) \/
  (exists m, In m months /\ nc = canal_constraint a m).
Proof.
  unfold chavi_problem; cbn [p_constraints]. intros Hin Hs.
  apply in_app_or in Hin. destruct Hin as [Hin | Hin].
  - apply in_map_iff in Hin. destruct Hin as [jm [E _]]. subst nc. discriminate Hs.
  - apply in_app_or in Hin. destruct Hin as [Hin | Hin].
    + apply in_map_iff in Hin. destruct Hin as [[i m] [E Hin]]. subst nc.
      apply in_for_for in Hin. left. exists i, m. tauto.
    + apply in_app_or in Hin. destruct Hin as [Hin | Hin].
      * apply in_map_iff in Hin. destruct Hin as [m [E Hin]]. subst nc.
        right. exists m. tauto.
      * apply in_map_iff in Hin. destruct Hin as [jm [E _]]. subst nc. discriminate Hs.
Qed.

(** C3. For a recognised scenario, each of the four priority demands and
    every month, the problem holds the constraint [u(j,m) == 0]; a feasible
    assignment gives that deficit the value zero, whatever the penalty rate
    and the weights. *)
Theorem priority_deficit_is_zero (env : PulpEnv) (a : Args) (j m : string) :
  recognised (scenario a) ->
  In j ["PTAP_Trujillo"; "PTAP_Chao"; "Industria"; "Pecuario"] -> In m months ->
  let st := fst (build_and_solve env a) in
  exists p name,
    st_prob st = Some p /\
    In (name, {| c_lhs := LpVar (u_var j m); c_sense := LpConstraintEQ; c_rhs := 0 |})
       (p_constraints p) /\
    (forall val, feasible val st -> val (u_name j m) == 0).
Proof.
  intros Hsc Hj Hm st. subst st. rewrite (store_recognised env a Hsc).
  exists (chavi_problem a), (fst (zero_deficit_constraint j m)).
  split; [reflexivity |]. split.
  - exact (in_zero_deficit a j m Hj Hm).
  - intros val Hf. apply holds_zero_deficit.
    exact (feasible_holds val a _ Hf (in_zero_deficit a j m Hj Hm)).
Qed.

Lemma priority_deficit_is_zero_witness :
  recognised (scenario default_args) /\
  In "Industria" ["PTAP_Trujillo"; "PTAP_Chao"; "Industria"; "Pecuario"] /\
  In "Sep" months /\
  exists p name,
    st_prob (fst (build_and_solve idle_env default_args)) = Some p /\
    In (name, {| c_lhs := LpVar (u_var "Industria" "Sep");
                 c_sense := LpConstraintEQ; c_rhs := 0 |})
       (p_constraints p) /\
    (forall val, feasible val (fst (build_and_solve idle_env default_args)) ->
                 val (u_name "Industria" "Sep") == 0).
Proof.
  assert (Hsc : recognised (scenario default_args)) by (left; reflexivity).
  assert (Hj : In "Industria" ["PTAP_Trujillo"; "PTAP_Chao"; "Industria"; "Pecuario"])
    by (right; right; left; reflexivity).
  assert (Hm : In "Sep" months) by (do 8 right; left; reflexivity).
  split; [exact Hsc |]. split; [exact Hj |]. split; [exact Hm |].
  exact (priority_deficit_is_zero idle_env default_args "Industria" "Sep" Hsc Hj Hm).
Defined.

(** C4. For a recognised scenario, every source [i] and every month [m],
    the problem holds the constraint: the allocations out of [i] over the
    demands with a valid arc are at most the adjusted converted supply.
    The adjustment multiplies by [mult_pozos_chao] for Pozos_Chao, by
    [mult_pozos_viru] for Pozos_Viru, and changes no other source. *)
Theorem supply_limit_with_multipliers (env : PulpEnv) (a : Args) (i m : string) :
  recognised (scenario a) -> In i sources -> In m months ->
  let st := fst (build_and_solve env a) in
  let limit :=
    if String.eqb i "Pozos_Chao" then supply_volume i m * mult_pozos_chao a
    else if String.eqb i "Pozos_Viru" then supply_volume i m * mult_pozos_viru a
    else supply_volume i m in
  exists p name c,
    st_prob st = Some p /\ In (name, c) (p_constraints p) /\
    c_sense c = LpConstraintLE /\ c_rhs c = limit /\
    (forall val, holds val c <-> outflow val i m <= limit) /\
    (forall val, feasible val st -> outflow val i m <= limit) /\
    (i = "Pozos_Chao" -> limit = supply_volume i m * mult_pozos_chao a) /\
    (i = "Pozos_Viru" -> limit = supply_volume i m * mult_pozos_viru a) /\
    (i <> "Pozos_Chao" -> i <> "Pozos_Viru" -> limit = supply_volume i m).
Proof.
  intros Hsc Hi Hm st limit. subst st. rewrite (store_recognised env a Hsc).
  exists (chavi_problem a), (fst (supply_constraint a i m)), (snd (supply_constraint a i m)).
  split; [reflexivity |]. split.
  { rewrite <- surjective_pairing. apply in_supply; assumption. }
  split; [reflexivity |]. split; [reflexivity |]. split.
  { intros val. apply holds_supply. }
  split.
  { intros val Hf. apply (holds_supply val a i m).
    exact (feasible_holds val a _ Hf (in_supply a i m Hi Hm)). }
  subst limit. split; [| split].
  - intros ->. reflexivity.
  - intros ->. reflexivity.
  - intros H1 H2. apply String.eqb_neq in H1, H2. rewrite H1, H2. reflexivity.
Qed.

Lemma supply_limit_with_multipliers_witness :
  recognised (scenario default_args) /\ In "Pozos_Chao" sources /\ In "Jul" months /\
  exists p name c,
    st_prob (fst (build_and_solve idle_env default_args)) = Some p /\
    In (name, c) (p_constraints p) /\
    c_sense c = LpConstraintLE /\
    c_rhs c = supply_volume "Pozos_Chao" "Jul" * mult_pozos_chao default_args /\
    (forall val, feasible val (fst (build_and_solve idle_env default_args)) ->
       outflow val "Pozos_Chao" "Jul"
       <= supply_volume "Pozos_Chao" "Jul" * mult_pozos_chao default_args).
Proof.
  assert (Hsc : recognised (scenario default_args)) by (left; reflexivity).
  assert (Hi : In "Pozos_Chao" sources) by (do 6 right; left; reflexivity).
  assert (Hm : In "Jul" months) by (do 6 right; left; reflexivity).
  split; [exact Hsc |]. split; [exact Hi |]. split; [exact Hm |].
  destruct (supply_limit_with_multipliers idle_env default_args "Pozos_Chao" "Jul" Hsc Hi Hm)
    as [p [name [c [H1 [H2 [H3 [H4 [_ [H6 _]]]]]]]]].
  exists p, name, c.
  split; [exact H1 |]. split; [exact H2 |]. split; [exact H3 |].
  split; [exact H4 |]. exact H6.
Defined.

(** C5. For a recognised scenario and every month [m], the problem holds
    the constraint that Santa's allocations over all demands are at most
    [cap_santa_m3s * seconds_in_month / 10^6], next to Santa's own supply
    constraint, under a different name; a feasible assignment satisfies
    both.  Every [<=] constraint of the problem is either the supply
    constraint of some source or this canal constraint on Santa. *)
Theorem canal_capacity_stacks_on_supply (env : PulpEnv) (a : Args) (m : string) :
  recognised (scenario a) -> In m months ->
  let st := fst (build_and_solve env a) in
  let santa := fun val : string -> Q => sum_over demands (fun j => val (x_name "Santa" j m)) in
  let cap := cap_santa_m3s a * inject_Z (seconds_in_month m) / 1000000 in
  exists p ncap nsup ccap csup,
    st_prob st = Some p /\
    In (ncap, ccap) (p_constraints p) /\ In (nsup, csup) (p_constraints p) /\
    ncap <> nsup /\
    c_sense ccap = LpConstraintLE /\ c_sense csup = LpConstraintLE /\
    (forall val, holds val ccap <-> santa val <= cap) /\
    (forall val, holds val csup <-> santa val <= supply_volume "Santa" m) /\
    (forall val, feasible val st ->
       santa val <= cap /\ santa val <= supply_volume "Santa" m) /\
    (forall n c, In (n, c) (p_constraints p) -> c_sense c = LpConstraintLE ->
       (exists i m', In i sources /\ In m' months /\
          forall val, holds val c <-> outflow val i m' <= adjusted_supply a i m') \/
       (exists m', In m' months /\
          c_lhs c = lpSum (map (fun j => LpVar (x_var "Santa" j m')) demands) /\
          c_rhs c = cap_santa_m3s a * inject_Z (seconds_in_month m') / 1000000)).
Proof.
  intros Hsc Hm st santa cap. subst st. rewrite (store_recognised env a Hsc).
  exists (chavi_problem a), (fst (canal_constraint a m)), (fst (supply_constraint a "Santa" m)),
         (snd (canal_constraint a m)), (snd (supply_constraint a "Santa" m)).
  assert (Hsanta : In "Santa" sources) by (left; reflexivity).
  split; [reflexivity |]. split.
  { rewrite <- surjective_pairing. apply in_canal; assumption. }
  split.
  { rewrite <- surjective_pairing. apply in_supply; assumption. }
  split.
  { cbn [fst canal_constraint supply_constraint]. discriminate. }
  split; [reflexivity |]. split; [reflexivity |]. split.
  { intros val. exact (holds_canal_santa val a m). }
  split.
  { intros val. exact (holds_supply_santa val a m). }
  split.
  { intros val Hf. split.
    - apply (proj1 (holds_canal_santa val a m)).
      exact (feasible_holds val a _ Hf (in_canal a m Hm)).
    - apply (proj1 (holds_supply_santa val a m)).
      exact (feasible_holds val a _ Hf (in_supply a "Santa" m Hsanta Hm)). }
  intros n c Hin Hs.
  destruct (le_constraints a (n, c) Hin Hs) as [[i [m' [Hi [Hm' E]]]] | [m' [Hm' E]]].
  - left. exists i, m'. split; [assumption |]. split; [assumption |].
    intros val. replace c with (snd (supply_constraint a i m')).
    + apply holds_supply.
    + rewrite <- E. reflexivity.
  - right. exists m'. split; [assumption |].
    replace c with (snd (canal_constraint a m')).
    + split; reflexivity.
    + rewrite <- E. reflexivity.
Qed.

Lemma canal_capacity_stacks_on_supply_witness :
  recognised (scenario default_args) /\ In "Ene" months /\
  exists p ncap nsup ccap csup,
    st_prob (fst (build_and_solve idle_env default_args)) = Some p /\
    In (ncap, ccap) (p_constraints p) /\ In (nsup, csup) (p_constraints p) /\
    ncap <> nsup /\
    (forall val, feasible val (fst (build_and_solve idle_env default_args)) ->
       sum_over demands (fun j => val (x_name "Santa" j "Ene"))
       <= cap_santa_m3s default_args * inject_Z (seconds_in_month "Ene") / 1000000 /\
       sum_over demands (fun j => val (x_name "Santa" j "Ene"))
       <= supply_volume "Santa" "Ene").
Proof.
  assert (Hsc : recognised (scenario default_args)) by (left; reflexivity).
  assert (Hm : In "Ene" months) by (left; reflexivity).
  split; [exact Hsc |]. split; [exact Hm |].
  destruct (canal_capacity_stacks_on_supply idle_env default_args "Ene" Hsc Hm)
    as [p [ncap [nsup [ccap [csup [H1 [H2 [H3 [H4 [_ [_ [_ [_ [H9 _]]]]]]]]]]]]]].
  exists p, ncap, nsup, ccap, csup.
  split; [exact H1 |]. split; [exact H2 |]. split; [exact H3 |].
  split; [exact H4 |]. exact H9.
Defined.

Lemma allowed_arcs_arcs : allowed_arcs = arcs.
Proof. vm_compute. reflexivity. Qed.

Lemma lp_eval_sub (val : string -> Q) (e1 e2 : LpExpr) :
  lp_eval val (LpSub e1 e2) = lp_eval val e1 - lp_eval val e2.
Proof. reflexivity. Qed.

Lemma lp_eval_objective (val : string -> Q) (a : Args) :
  lp_eval val (objective_expr a)
  = sum_over arcs
      (fun ijm =>
         (efficiency (scenario a) (snd (fst ijm)) * unit_value (snd (fst ijm))
          - unit_cost (fst (fst ijm)))
         * val (x_name (fst (fst ijm)) (snd (fst ijm)) (snd ijm)))
    - sum_over (for_for demands months)
        (fun jm => penalty_usd_hm3 a * sector_weight a (fst jm) * val (u_name (fst jm) (snd jm))).
Proof.
  unfold objective_expr, benefit_term, penalty_term.
  rewrite lp_eval_sub, !lp_eval_lpSum. reflexivity.
Qed.

Lemma sum_benefit_minus_cost (l : list arc) (e v c x : arc -> Q) :
  sum_over l (fun k => (e k * v k - c k) * x k)
  == sum_over l (fun k => e k * v k * x k) - sum_over l (fun k => c k * x k).
Proof.
  rewrite <- sum_over_minus. apply sum_over_ext. intros k _. ring.
Qed.

(** C2. For a recognised scenario the problem maximises an objective whose
    value under every assignment is the sum over the allowed arcs of
    [(efficiency * unit_value - unit_cost) * x] minus the sum over all
    (demand, month) pairs of [penalty_rate * sector_weight * u]; the
    efficiency multiplies the value and not the cost; the sector weight is
    [weight_ptap] for the two PTAP demands, [weight_ind_pec] for Industria
    and Pecuario and [weight_agro] for every other demand. *)
Theorem objective_is_net_benefit_minus_penalty (env : PulpEnv) (a : Args) :
  recognised (scenario a) ->
  let st := fst (build_and_solve env a) in
  let eff := efficiency (scenario a) in
  let x := fun (val : string -> Q) (ijm : arc) =>
             val (x_name (fst (fst ijm)) (snd (fst ijm)) (snd ijm)) in
  let penalty := fun (val : string -> Q) =>
    sum_over (for_for demands months)
      (fun jm => penalty_usd_hm3 a * sector_weight a (fst jm) * val (u_name (fst jm) (snd jm))) in
  exists p name obj,
    st_prob st = Some p /\ p_sense p = LpMaximize /\ p_objective p = Some (name, obj) /\
    (forall val,
       lp_eval val obj
       == sum_over allowed_arcs
            (fun ijm => (eff (snd (fst ijm)) * unit_value (snd (fst ijm))
                         - unit_cost (fst (fst ijm))) * x val ijm)
          - penalty val) /\
    (forall val,
       lp_eval val obj
       == sum_over allowed_arcs
            (fun ijm => eff (snd (fst ijm)) * unit_value (snd (fst ijm)) * x val ijm)
          - sum_over allowed_arcs (fun ijm => unit_cost (fst (fst ijm)) * x val ijm)
          - penalty val) /\
    sector_weight a "PTAP_Trujillo" = weight_ptap a /\
    sector_weight a "PTAP_Chao" = weight_ptap a /\
    sector_weight a "Industria" = weight_ind_pec a /\
    sector_weight a "Pecuario" = weight_ind_pec a /\
    (forall j, ~ In j ["PTAP_Trujillo"; "PTAP_Chao"; "Industria"; "Pecuario"] ->
               sector_weight a j = weight_agro a).
Proof.
  intros Hsc st eff x penalty. subst st. rewrite (store_recognised env a Hsc).
  exists (chavi_problem a), "Beneficio_Neto", (objective_expr a).
  split; [reflexivity |]. split; [reflexivity |]. split; [reflexivity |].
  rewrite allowed_arcs_arcs. split.
  { intros val. rewrite lp_eval_objective. reflexivity. }
  split.
  { intros val. rewrite lp_eval_objective.
    subst x penalty eff. cbv beta. rewrite sum_benefit_minus_cost. reflexivity. }
  split; [reflexivity |]. split; [reflexivity |].
  split; [reflexivity |]. split; [reflexivity |].
  intros j Hj. unfold sector_weight, str_in.
  destruct (String.eqb j "PTAP_Trujillo") eqn:E1.
  { apply String.eqb_eq in E1. exfalso. apply Hj. left. symmetry. exact E1. }
  destruct (String.eqb j "PTAP_Chao") eqn:E2.
  { apply String.eqb_eq in E2. exfalso. apply Hj. right. left. symmetry. exact E2. }
  destruct (String.eqb j "Industria") eqn:E3.
  { apply String.eqb_eq in E3. exfalso. apply Hj. right. right. left. symmetry. exact E3. }
  destruct (String.eqb j "Pecuario") eqn:E4.
  { apply String.eqb_eq in E4. exfalso. apply Hj. right. right. right. left. symmetry. exact E4. }
  reflexivity.
Qed.

Lemma objective_is_net_benefit_minus_penalty_witness :
  recognised (scenario default_args) /\
  exists p name obj,
    st_prob (fst (build_and_solve idle_env default_args)) = Some p /\
    p_sense p = LpMaximize /\ p_objective p = Some (name, obj) /\
    (forall val,
       lp_eval val obj
       == sum_over allowed_arcs
            (fun ijm =>
               (efficiency (scenario default_args) (snd (fst ijm)) * unit_value (snd (fst ijm))
                - unit_cost (fst (fst ijm)))
               * val (x_name (fst (fst ijm)) (snd (fst ijm)) (snd ijm)))
          - sum_over (for_for demands months)
              (fun jm => penalty_usd_hm3 default_args * sector_weight default_args (fst jm)
                         * val (u_name (fst jm) (snd jm)))).
Proof.
  assert (Hsc : recognised (scenario default_args)) by (left; reflexivity).
  split; [exact Hsc |].
  destruct (objective_is_net_benefit_minus_penalty idle_env default_args Hsc)
    as [p [name [obj [H1 [H2 [H3 [H4 _]]]]]]].
  exists p, name, obj.
  split; [exact H1 |]. split; [exact H2 |]. split; [exact H3 |]. exact H4.
Defined.

Lemma returns_recognised (env : PulpEnv) (a : Args) (st : Store) (r : Result) :
  build_and_solve env a = (st, inr r) -> recognised (scenario a).
Proof.
  intros H. destruct (recognised_dec (scenario a)) as [Hsc | Hsc]; [exact Hsc |].
  rewrite (build_and_solve_unrecognised env a Hsc) in H. discriminate H.
Qed.

Lemma benefit_total_sum (a : Args) (sol : Solution) :
  benefit_total a sol
  == sum_over arcs
       (fun ijm => efficiency (scenario a) (snd (fst ijm)) * unit_value (snd (fst ijm))
                   * x_value sol ijm).
Proof.
  unfold benefit_total.
  rewrite (fold_left_sum arcs
             (fun ijm => efficiency (scenario a) (snd (fst ijm)) * unit_value (snd (fst ijm))
                         * x_value sol ijm)).
  ring.
Qed.

Lemma cost_total_sum (sol : Solution) :
  cost_total sol == sum_over arcs (fun ijm => unit_cost (fst (fst ijm)) * x_value sol ijm).
Proof.
  unfold cost_total.
  rewrite (fold_left_sum arcs (fun ijm => unit_cost (fst (fst ijm)) * x_value sol ijm)).
  ring.
Qed.

Lemma penalty_total_sum (a : Args) (sol : Solution) :
  penalty_total a sol
  == sum_over (for_for demands months)
       (fun jm => penalty_usd_hm3 a * sector_weight a (fst jm) * u_value sol jm).
Proof. unfold penalty_total. apply py_sum_map. Qed.

(** C8. When the call returns, the three totals of the result are the sums
    of [efficiency * unit_value * x], of [unit_cost * x] and of
    [penalty_rate * sector_weight * u] over the solved values, an absent
    value counting as 0, and benefit minus cost minus penalty equals the
    objective of the problem evaluated at those values; when [pl.value]
    gives the objective a number, it is that same number. *)
Theorem breakdown_reconciles_with_objective
    (env : PulpEnv) (a : Args) (st : Store) (r : Result) :
  build_and_solve env a = (st, inr r) ->
  exists p name obj sol,
    st_prob st = Some p /\ p_objective p = Some (name, obj) /\
    lp_solve env (choose_solver env a) p = inr sol /\
    r_benefit_total r
    == sum_over allowed_arcs
         (fun ijm => efficiency (scenario a) (snd (fst ijm)) * unit_value (snd (fst ijm))
                     * value_or_zero
                         (varValue sol (x_name (fst (fst ijm)) (snd (fst ijm)) (snd ijm)))) /\
    r_cost_total r
    == sum_over allowed_arcs
         (fun ijm => unit_cost (fst (fst ijm))
                     * value_or_zero
                         (varValue sol (x_name (fst (fst ijm)) (snd (fst ijm)) (snd ijm)))) /\
    r_penalty_total r
    == sum_over (for_for demands months)
         (fun jm => penalty_usd_hm3 a * sector_weight a (fst jm)
                    * value_or_zero (varValue sol (u_name (fst jm) (snd jm)))) /\
    r_benefit_total r - r_cost_total r - r_penalty_total r
    == lp_eval (solved_values sol) obj /\
    (forall o, r_objective r = Some o ->
               o == r_benefit_total r - r_cost_total r - r_penalty_total r).
Proof.
  intros H. assert (Hsc := returns_recognised env a st r H).
  rewrite (build_and_solve_recognised env a Hsc) in H.
  destruct (lp_solve env (choose_solver env a) (chavi_problem a)) as [e | sol] eqn:Hsol.
  { discriminate H. }
  inversion H; subst st r; clear H.
  exists (chavi_problem a), "Beneficio_Neto", (objective_expr a), sol.
  split; [reflexivity |]. split; [reflexivity |]. split; [exact Hsol |].
  rewrite allowed_arcs_arcs. cbn [chavi_result r_benefit_total r_cost_total r_penalty_total].
  split; [apply benefit_total_sum |].
  split; [apply cost_total_sum |].
  split; [apply penalty_total_sum |].
  assert (E : benefit_total a sol - cost_total sol - penalty_total a sol
              == lp_eval (solved_values sol) (objective_expr a)).
  { rewrite lp_eval_objective, sum_benefit_minus_cost.
    rewrite benefit_total_sum, cost_total_sum, penalty_total_sum.
    reflexivity. }
  split; [exact E |].
  cbn [r_objective]. intros o Ho. rewrite E. exact (lp_value_eval sol _ o Ho).
Qed.

Lemma breakdown_reconciles_with_objective_witness :
  build_and_solve ones_env default_args
  = (chavi_store default_args, inr (chavi_result default_args ones_solution)) /\
  exists p name obj sol,
    st_prob (chavi_store default_args) = Some p /\ p_objective p = Some (name, obj) /\
    lp_solve ones_env (choose_solver ones_env default_args) p = inr sol /\
    r_benefit_total (chavi_result default_args ones_solution)
    - r_cost_total (chavi_result default_args ones_solution)
    - r_penalty_total (chavi_result default_args ones_solution)
    == lp_eval (solved_values sol) obj.
Proof.
  assert (H : build_and_solve ones_env default_args
              = (chavi_store default_args, inr (chavi_result default_args ones_solution)))
    by (cbv -[Qplus Qmult Qminus Qdiv Qopp inject_Z value_or_zero]; reflexivity).
  split; [exact H |].
  destruct (breakdown_reconciles_with_objective ones_env default_args _ _ H)
    as [p [name [obj [sol [H1 [H2 [H3 [_ [_ [_ [H7 _]]]]]]]]]]].
  exists p, name, obj, sol.
  split; [exact H1 |]. split; [exact H2 |]. split; [exact H3 |]. exact H7.
Defined.

Lemma arc_eqb_eq (k k' : arc) : key_eqb k k' = true <-> k = k'.
Proof.
  destruct k as [[i j] m], k' as [[i' j'] m'].
  change (key_eqb (i, j, m) (i', j', m'))
    with ((String.eqb i i' && String.eqb j j') && String.eqb m m').
  rewrite !andb_true_iff, !String.eqb_eq. split.
  - intros [[-> ->] ->]. reflexivity.
  - intros E. inversion E. tauto.
Qed.

Lemma arc_eq_dec (k k' : arc) : {k = k'} + {k <> k'}.
Proof. repeat decide equality; apply Ascii.ascii_dec. Qed.

Lemma dict_find_keys {V : Type} (f : arc -> V) (l : list arc) (k : arc) :
  (In k l -> dict_find k (map (fun ijm => (ijm, f ijm)) l) = Some (f k)) /\
  (~ In k l -> dict_find k (map (fun ijm => (ijm, f ijm)) l) = None).
Proof.
  induction l as [| k' l [IH1 IH2]]; cbn [map dict_find].
  - split; [intros [] | reflexivity].
  - destruct (key_eqb k k') eqn:E.
    + apply arc_eqb_eq in E. subst k'. split; [reflexivity |].
      intros H. exfalso. apply H. left. reflexivity.
    + assert (N : k' <> k).
      { intros ->. assert (T : key_eqb k k = true) by (apply arc_eqb_eq; reflexivity).
        rewrite T in E. discriminate E. }
      split.
      * intros [H | H]; [contradiction | exact (IH1 H)].
      * intros H. apply IH2. intros H'. apply H. right. exact H'.
Qed.

Lemma in_arcs (ijm : arc) : In ijm arcs <-> arc_rule ijm.
Proof.
  destruct ijm as [[i j] m]. unfold arcs, arc_rule; cbn [fst snd].
  rewrite !in_app_iff, !in_map_iff. split.
  - intros [[[j' m'] [E H]] | [[[i' m'] [E H]] | [[i' m'] [E H]]]];
      cbn [fst snd] in E; inversion E; subst; apply in_for_for in H; tauto.
  - intros [Hm [[-> Hj] | [[Hi ->] | [Hi ->]]]].
    + left. exists (j, m). split; [reflexivity | apply in_for_for; tauto].
    + right. left. exists (i, m). split; [reflexivity | apply in_for_for; tauto].
    + right. right. exists (i, m). split; [reflexivity | apply in_for_for; tauto].
Qed.

Lemma in_chavi_variables (v : LpVariable) :
  In v chavi_variables <->
  (exists ijm, In ijm arcs /\ v = x_of_arc ijm)
  \/ (exists j m, In j demands /\ In m months /\ v = u_var j m).
Proof.
  unfold chavi_variables. rewrite in_app_iff, !in_map_iff. split.
  - intros [[ijm [E H]] | [[j m] [E H]]].
    + left. exists ijm. split; [exact H | symmetry; exact E].
    + right. exists j, m. apply in_for_for in H. destruct H as [Hj Hm].
      split; [exact Hj |]. split; [exact Hm | symmetry; exact E].
  - intros [[ijm [H E]] | [j [m [Hj [Hm E]]]]].
    + left. exists ijm. split; [symmetry; exact E | exact H].
    + right. exists (j, m). split; [symmetry; exact E | apply in_for_for; tauto].
Qed.

Lemma model_built_recognised (a : Args) (st : Store) (loc : Locals) :
  build_model a empty_store = (st, inr loc) -> recognised (scenario a).
Proof.
  intros H. destruct (recognised_dec (scenario a)) as [Hsc | Hsc]; [exact Hsc |].
  rewrite (build_model_unrecognised a Hsc) in H. discriminate H.
Qed.

(** C6. The allowed arcs are the triples (Santa, j, m) for every demand
    and month, (i, Chao, m) for the four Chao sources and (i, Viru, m) for
    the three Viru sources; the set takes no argument of the call.  When
    the model is built, [x] has a variable for a triple exactly when the
    triple is an allowed arc, and the variables created are these and the
    deficit variables. *)
Theorem allocation_variables_are_the_allowed_arcs (a : Args) (st : Store) (loc : Locals) :
  build_model a empty_store = (st, inr loc) ->
  (forall ijm : arc,
     In ijm allowed_arcs <->
     In (snd ijm) months /\
     ((fst (fst ijm) = "Santa" /\ In (snd (fst ijm)) demands)
      \/ (In (fst (fst ijm)) ["Huamanzaña"; "Chorobal"; "Dren_Chao"; "Pozos_Chao"]
          /\ snd (fst ijm) = "Chao")
      \/ (In (fst (fst ijm)) ["Viru_Rio"; "Dren_Viru"; "Pozos_Viru"]
          /\ snd (fst ijm) = "Viru"))) /\
  (forall ijm : arc, dict_has ijm (l_x loc) = true <-> In ijm allowed_arcs) /\
  (forall ijm : arc, In ijm allowed_arcs -> dict_find ijm (l_x loc) = Some (x_of_arc ijm)) /\
  (forall v : LpVariable,
     In v (st_vars st) <->
     (exists ijm, In ijm allowed_arcs /\ v = x_of_arc ijm)
     \/ (exists j m, In j demands /\ In m months /\ v = u_var j m)).
Proof.
  intros H. assert (Hsc := model_built_recognised a st loc H).
  rewrite (build_model_recognised a Hsc) in H. inversion H; subst st loc; clear H.
  rewrite allowed_arcs_arcs. cbn [chavi_locals l_x chavi_store st_vars].
  split; [| split; [| split]].
  - intros ijm. apply in_arcs.
  - intros ijm. unfold dict_has.
    destruct (dict_find_keys x_of_arc arcs ijm) as [F1 F2].
    destruct (in_dec arc_eq_dec ijm arcs) as [Hin | Hout].
    + rewrite (F1 Hin). tauto.
    + rewrite (F2 Hout). split; [discriminate | contradiction].
  - intros ijm Hin. apply (dict_find_keys x_of_arc arcs ijm). exact Hin.
  - intros v. apply in_chavi_variables.
Qed.

Lemma allocation_variables_are_the_allowed_arcs_witness :
  build_model default_args empty_store
  = (chavi_store default_args, inr (chavi_locals default_args)) /\
  (forall ijm : arc,
     dict_has ijm (l_x (chavi_locals default_args)) = true <-> In ijm allowed_arcs) /\
  (forall v : LpVariable,
     In v (st_vars (chavi_store default_args)) <->
     (exists ijm, In ijm allowed_arcs /\ v = x_of_arc ijm)
     \/ (exists j m, In j demands /\ In m months /\ v = u_var j m)).
Proof.
  assert (H : build_model default_args empty_store
              = (chavi_store default_args, inr (chavi_locals default_args)))
    by (cbv -[Qplus Qmult Qminus Qdiv Qopp inject_Z]; reflexivity).
  split; [exact H |].
  destruct (allocation_variables_are_the_allowed_arcs default_args _ _ H)
    as [_ [H2 [_ H4]]].
  split; [exact H2 | exact H4].
Defined.

(** C7. The day counts are those of a non-leap year, the seconds of a
    month are [day_count * 24 * 3600], and the supply series, the demand
    series and the canal capacity are each converted by the same formula
    [flow * seconds_in_month / 1000000]. *)
Theorem flow_rates_become_monthly_volumes (a : Args) :
  map day_count months = [31; 28; 31; 30; 31; 30; 31; 31; 30; 31; 30; 31]%Z /\
  days = map day_count months /\
  exists Qh Dh Cap,
    Qhat empty_store = (empty_store, inr Qh) /\
    Dhat empty_store = (empty_store, inr Dh) /\
    CapSanta a empty_store = (empty_store, inr Cap) /\
    forall m, In m months ->
      dict_find m secs = Some (day_count m * 24 * 3600)%Z /\
      (forall i, In i sources ->
         dict_find (i, m) Qh
         = Some (flow_of offer_m3s i m * inject_Z (day_count m * 24 * 3600) / 1000000)) /\
      (forall j, In j demands ->
         dict_find (j, m) Dh
         = Some (flow_of demand_m3s j m * inject_Z (day_count m * 24 * 3600) / 1000000)) /\
      dict_find m Cap
      = Some (cap_santa_m3s a * inject_Z (day_count m * 24 * 3600) / 1000000).
Proof.
  split; [reflexivity |]. split; [reflexivity |].
  exists (map (fun im => (im, supply_volume (fst im) (snd im))) (for_for sources months)),
         (map (fun jm => (jm, demand_volume (fst jm) (snd jm))) (for_for demands months)),
         (map (fun m => (m, canal_capacity a m)) months).
  split; [cbv -[Qplus Qmult Qminus Qdiv Qopp inject_Z]; reflexivity |].
  split; [cbv -[Qplus Qmult Qminus Qdiv Qopp inject_Z]; reflexivity |].
  split; [cbv -[Qplus Qmult Qminus Qdiv Qopp inject_Z cap_santa_m3s]; reflexivity |].
  intros m Hm. cbv [months In] in Hm.
  repeat (destruct Hm as [<- | Hm]); try contradiction;
    (split; [reflexivity |]; split; [| split]);
    try (cbv -[Qplus Qmult Qminus Qdiv Qopp inject_Z cap_santa_m3s]; reflexivity);
    intros k Hk; cbv [sources demands In] in Hk;
    repeat (destruct Hk as [<- | Hk]); try contradiction;
    cbv -[Qplus Qmult Qminus Qdiv Qopp inject_Z]; reflexivity.
Qed.

Lemma S3_unrecognised : ~ recognised "S3".
Proof. intros [H | H]; discriminate H. Qed.

(** C9, as the code has it.  A scenario other than S1 and S2 aborts the
    call with [KeyError] at the efficiency lookup.  The lookup comes after
    the problem object and all 324 decision variables have been created
    and before any constraint or the objective is added; the outcome does
    not depend on the solver, and nothing is returned. *)
Theorem unrecognised_scenario_aborts_after_declarations (env : PulpEnv) (a : Args) :
  ~ recognised (scenario a) ->
  exists st p,
    build_and_solve env a = (st, inl (KeyError [scenario a])) /\
    st_prob st = Some p /\
    p_constraints p = [] /\ p_objective p = None /\
    (forall v : LpVariable,
       In v (st_vars st) <->
       (exists ijm, In ijm allowed_arcs /\ v = x_of_arc ijm)
       \/ (exists j m, In j demands /\ In m months /\ v = u_var j m)) /\
    length (st_vars st) = 324%nat /\
    (forall env', build_and_solve env' a = build_and_solve env a).
Proof.
  intros Hsc. exists declared_store.
  exists {| p_name := "CHAVI_Optim_Recursos_Hidricos"; p_sense := LpMaximize;
            p_constraints := []; p_objective := None |}.
  split; [exact (build_and_solve_unrecognised env a Hsc) |].
  split; [reflexivity |]. split; [reflexivity |]. split; [reflexivity |].
  split; [intros v; rewrite allowed_arcs_arcs; apply in_chavi_variables |].
  split; [vm_compute; reflexivity |].
  intros env'. rewrite !build_and_solve_unrecognised by exact Hsc. reflexivity.
Qed.

Lemma unrecognised_scenario_aborts_after_declarations_witness :
  ~ recognised (scenario (with_scenario "S3" default_args)) /\
  exists st p,
    build_and_solve idle_env (with_scenario "S3" default_args)
    = (st, inl (KeyError ["S3"])) /\
    st_prob st = Some p /\ p_constraints p = [] /\ p_objective p = None /\
    length (st_vars st) = 324%nat.
Proof.
  assert (Hsc : ~ recognised (scenario (with_scenario "S3" default_args)))
    by (intros [H | H]; discriminate H).
  split; [exact Hsc |].
  destruct (unrecognised_scenario_aborts_after_declarations
              idle_env (with_scenario "S3" default_args) Hsc)
    as [st [p [H1 [H2 [H3 [H4 [_ [H6 _]]]]]]]].
  exists st, p.
  split; [exact H1 |]. split; [exact H2 |]. split; [exact H3 |].
  split; [exact H4 | exact H6].
Defined.

(** C9 as stated fails for the scenario name S3: when the call aborts, the
    problem object and the variables exist. *)
Lemma unrecognised_scenario_leaves_problem_and_variables :
  ~ (exists e st,
       build_and_solve idle_env (with_scenario "S3" default_args) = (st, inl e) /\
       st_prob st = None /\ st_vars st = []).
Proof.
  intros [e [st [H [Hp _]]]].
  rewrite (build_and_solve_unrecognised idle_env (with_scenario "S3" default_args)
             S3_unrecognised) in H.
  inversion H; subst st. discriminate Hp.
Qed.

(** Lower-casing a name and comparing it with a plain name is matching
    the name without regard to case. *)
Lemma ascii_eqb_nat (c d : ascii) :
  Ascii.eqb c d = (nat_of_ascii c =? nat_of_ascii d)%nat.
Proof.
  destruct (Ascii.eqb c d) eqn:E.
  - apply Ascii.eqb_eq in E. subst d. symmetry. apply Nat.eqb_refl.
  - symmetry. apply Nat.eqb_neq. intros H. apply Ascii.eqb_neq in E. apply E.
    rewrite <- (ascii_nat_embedding c), <- (ascii_nat_embedding d). rewrite H. reflexivity.
Qed.

Lemma ascii_lower_eqb (c d : ascii) :
  plain_char d = true ->
  Ascii.eqb (ascii_lower c) d = Ascii.eqb c d || Ascii.eqb c (ascii_upper d).
Proof.
  intros Hd. rewrite !ascii_eqb_nat. unfold ascii_lower, ascii_upper, plain_char in *.
  pose proof (nat_ascii_bounded c) as Hc. pose proof (nat_ascii_bounded d) as Hd'.
  set (n := nat_of_ascii c) in *. set (m := nat_of_ascii d) in *.
  apply andb_true_iff in Hd. destruct Hd as [H1 H2].
  apply Nat.ltb_lt in H1. apply negb_true_iff in H2.
  destruct ((65 <=? n)%nat && (n <=? 90)%nat) eqn:En;
  destruct ((97 <=? m)%nat && (m <=? 122)%nat) eqn:Em;
  rewrite ?nat_ascii_embedding by
    (try (apply andb_true_iff in En; destruct En as [En1 En2];
          apply Nat.leb_le in En1; apply Nat.leb_le in En2);
     try (apply andb_true_iff in Em; destruct Em as [Em1 Em2];
          apply Nat.leb_le in Em1; apply Nat.leb_le in Em2); lia);
  fold n; fold m.
  all: try (apply andb_true_iff in En; destruct En as [En1 En2];
            apply Nat.leb_le in En1; apply Nat.leb_le in En2).
  all: try (apply andb_true_iff in Em; destruct Em as [Em1 Em2];
            apply Nat.leb_le in Em1; apply Nat.leb_le in Em2).
  all: try (apply andb_false_iff in En; rewrite !Nat.leb_gt in En).
  all: try (apply andb_false_iff in Em; rewrite !Nat.leb_gt in Em).
  all: apply andb_false_iff in H2; rewrite !Nat.leb_gt in H2.
  all: destruct (n + 32 =? m)%nat eqn:E1; destruct (n =? m)%nat eqn:E2;
       destruct (n =? m - 32)%nat eqn:E3;
       rewrite ?Nat.eqb_eq, ?Nat.eqb_neq in *; try reflexivity; cbn; lia.
Qed.

Lemma kelvin_lead_not_plain (c c2 c3 d : ascii) :
  is_kelvin c c2 c3 = true -> plain_char d = true ->
  Ascii.eqb c d || Ascii.eqb c (ascii_upper d) = false.
Proof.
  intros K Hd. rewrite <- (ascii_lower_eqb c d Hd).
  unfold is_kelvin in K. apply andb_true_iff in K. destruct K as [K _].
  apply andb_true_iff in K. destruct K as [K _]. apply Ascii.eqb_eq in K. subst c.
  change (ascii_lower "226") with "226"%char.
  destruct (Ascii.eqb "226" d) eqn:E; [| reflexivity].
  apply Ascii.eqb_eq in E. subst d. discriminate Hd.
Qed.

Lemma str_lower_matches (t : string) :
  plain t = true -> forall s, String.eqb (str_lower s) t = caseless_match t s.
Proof.
  induction t as [| d t' IH]; intros Hp s.
  - destruct s as [| c [| c2 [| c3 s3]]]; try reflexivity.
    cbn [str_lower]. destruct (is_kelvin c c2 c3); reflexivity.
  - cbn [plain] in Hp. apply andb_true_iff in Hp. destruct Hp as [Hd Hp].
    specialize (IH Hp).
    destruct s as [| c s']; [reflexivity |].
    destruct s' as [| c2 [| c3 s3]].
    + cbn [caseless_match]. rewrite <- (IH EmptyString).
      rewrite andb_false_r, orb_false_r. rewrite <- (ascii_lower_eqb c d Hd). reflexivity.
    + cbn [caseless_match]. rewrite <- (IH (String c2 EmptyString)).
      rewrite andb_false_r, orb_false_r. rewrite <- (ascii_lower_eqb c d Hd). reflexivity.
    + cbn [caseless_match]. rewrite <- (IH (String c2 (String c3 s3))), <- (IH s3).
      change (str_lower (String c (String c2 (String c3 s3))))
        with (if is_kelvin c c2 c3 then String "k" (str_lower s3)
              else String (ascii_lower c) (str_lower (String c2 (String c3 s3)))).
      destruct (is_kelvin c c2 c3) eqn:K.
      * rewrite (kelvin_lead_not_plain c c2 c3 d K Hd). cbn [andb orb String.eqb].
        rewrite (Ascii.eqb_sym d "k"). reflexivity.
      * cbn [andb]. rewrite andb_false_r, orb_false_r.
        rewrite <- (ascii_lower_eqb c d Hd). reflexivity.
Qed.

(** The backend that the selection asks for: GLPK for a name that spells
    glpk or glpk_cmd in any case, CBC for every other name and for no
    name. *)
Lemma choose_solver_by_name (env : PulpEnv) (a : Args) :
  choose_solver env a
  = try_ctor env
      (if caseless_match "glpk" (name_or_cbc (solver_name a))
          || caseless_match "glpk_cmd" (name_or_cbc (solver_name a))
       then GLPK_CMD (solver_msg a) (glpk_options (solver_time_limit a))
       else PULP_CBC_CMD (solver_msg a) (solver_time_limit a)).
Proof.
  rewrite <- (str_lower_matches "glpk" eq_refl), <- (str_lower_matches "glpk_cmd" eq_refl).
  unfold choose_solver, str_in.
  set (name := str_lower (name_or_cbc (solver_name a))).
  destruct (String.eqb name "cbc") eqn:E1.
  { apply String.eqb_eq in E1. rewrite E1. reflexivity. }
  destruct (String.eqb name "pulp_cbc_cmd") eqn:E2.
  { apply String.eqb_eq in E2. rewrite E2. reflexivity. }
  cbn [orb].
  destruct (String.eqb name "glpk"); [reflexivity |].
  destruct (String.eqb name "glpk_cmd"); reflexivity.
Qed.

(** C10, as the code has it.  The selection itself raises nothing: for
    every solver name, absent or not, the backend asked for is GLPK when
    the name spells glpk or glpk_cmd in any case and CBC for every other
    name; when its constructor raises, the solve runs with PuLP's default
    solver.  The solve call is outside the [try]: once the model is built,
    the call raises exactly when that one solve call raises, with its
    exception, and returns a result with the solve's status otherwise. *)
Theorem solver_selection_falls_back_and_solve_errors_surface
    (env : PulpEnv) (a : Args) (st : Store) (loc : Locals) :
  build_model a empty_store = (st, inr loc) ->
  let name :=
    match solver_name a with
    | Some (String c s) => String c s
    | _ => "cbc"
    end in
  let cbc := PULP_CBC_CMD (solver_msg a) (solver_time_limit a) in
  let glpk := GLPK_CMD (solver_msg a) (glpk_options (solver_time_limit a)) in
  let wanted :=
    if caseless_match "glpk" name || caseless_match "glpk_cmd" name then glpk else cbc in
  let used := if ctor_raises env wanted then None else Some wanted in
  choose_solver env a = used /\
  exists p, st_prob st = Some p /\
    (forall e, snd (build_and_solve env a) = inl e <-> lp_solve env used p = inl e) /\
    (forall sol, lp_solve env used p = inr sol ->
                 exists r, snd (build_and_solve env a) = inr r /\
                           r_status r = LpStatus (sol_status sol)).
Proof.
  intros Hb name cbc glpk wanted used.
  assert (Hname : name = name_or_cbc (solver_name a)).
  { subst name. destruct (solver_name a) as [[| c s] |]; reflexivity. }
  assert (Hch : choose_solver env a = used).
  { rewrite choose_solver_by_name, <- Hname. reflexivity. }
  split; [exact Hch |].
  destruct (recognised_dec (scenario a)) as [Hsc | Hsc].
  2: { rewrite (build_model_unrecognised a Hsc) in Hb. discriminate Hb. }
  rewrite (build_model_recognised a Hsc) in Hb. inversion Hb; subst st loc.
  exists (chavi_problem a). split; [reflexivity |].
  rewrite (build_and_solve_recognised env a Hsc), Hch. cbn [snd]. split.
  - intros e. destruct (lp_solve env used (chavi_problem a)) as [e' | sol].
    + split; intros H; inversion H; reflexivity.
    + split; intros H; discriminate H.
  - intros sol ->. exists (chavi_result a sol). split; reflexivity.
Qed.

Lemma solver_selection_falls_back_and_solve_errors_surface_witness :
  build_model (with_solver_name (Some "GLPK") default_args) empty_store
  = (chavi_store (with_solver_name (Some "GLPK") default_args),
     inr (chavi_locals (with_solver_name (Some "GLPK") default_args))) /\
  choose_solver glpk_missing_env (with_solver_name (Some "GLPK") default_args)
  = Some (GLPK_CMD false None) /\
  snd (build_and_solve glpk_missing_env (with_solver_name (Some "GLPK") default_args))
  = inl (PulpSolverError "PuLP: cannot execute glpsol").
Proof.
  assert (Hb := build_model_recognised (with_solver_name (Some "GLPK") default_args)
                  (or_introl eq_refl)).
  split; [exact Hb |].
  destruct (solver_selection_falls_back_and_solve_errors_surface
              glpk_missing_env (with_solver_name (Some "GLPK") default_args) _ _ Hb)
    as [H1 [p [Hp [H2 _]]]].
  split; [exact H1 |].
  apply (proj2 (H2 _)). reflexivity.
Defined.

(** C10 as stated fails when the program glpsol is not installed: the
    constructor of GLPK succeeds, so nothing falls back, and the solve
    raises.  With the name cbc the same call returns; with the name glpk
    it aborts. *)
Lemma solver_name_glpk_surfaces_as_error :
  (exists r, snd (build_and_solve glpk_missing_env default_args) = inr r) /\
  ~ (exists r, snd (build_and_solve glpk_missing_env
                      (with_solver_name (Some "glpk") default_args)) = inr r).
Proof.
  split.
  - rewrite (build_and_solve_recognised glpk_missing_env default_args (or_introl eq_refl)).
    cbn [snd]. eexists. reflexivity.
  - intros [r H].
    rewrite (build_and_solve_recognised glpk_missing_env
               (with_solver_name (Some "glpk") default_args) (or_introl eq_refl)) in H.
    cbn [snd] in H. discriminate H.
Qed.

(* ================================================================== *)
(** ** Concrete runs *)

Lemma feasible_b_sound (val : string -> Q) (st : Store) :
  feasible_b val st = true -> feasible val st.
Proof.
  unfold feasible_b, feasible. intros H. apply andb_true_iff in H. destruct H as [Hv Hc].
  split.
  - intros v Hin. rewrite forallb_forall in Hv. specialize (Hv v Hin).
    unfold in_bounds_b in Hv. apply andb_true_iff in Hv. destruct Hv as [Hl Hu].
    unfold in_bounds. split.
    + destruct (v_lowBound v); [apply Qle_bool_iff; exact Hl | exact I].
    + destruct (v_upBound v); [apply Qle_bool_iff; exact Hu | exact I].
  - intros p nc Hp Hin. rewrite Hp in Hc. rewrite forallb_forall in Hc.
    specialize (Hc nc Hin). unfold holds_b in Hc. unfold holds.
    destruct (c_sense (snd nc)).
    + apply Qle_bool_iff; exact Hc.
    + apply Qeq_bool_iff; exact Hc.
    + apply Qle_bool_iff; exact Hc.
Qed.

(** The default model has a feasible assignment: the statements about
    feasible assignments are not empty. *)
Lemma default_model_is_feasible :
  feasible baseline (fst (build_and_solve idle_env default_args)).
Proof.
  rewrite (store_recognised idle_env default_args (or_introl eq_refl)).
  apply feasible_b_sound. vm_compute. reflexivity.
Qed.

(** So has it with 1 hm3 more from Santa to Chao and to S1 in January. *)
Lemma served_is_feasible :
  feasible served (fst (build_and_solve idle_env default_args)).
Proof.
  rewrite (store_recognised idle_env default_args (or_introl eq_refl)).
  apply feasible_b_sound. vm_compute. reflexivity.
Qed.

(** Variables and constraints are told apart by their names. *)
Lemma variable_names_distinct : NoDup (map v_name chavi_variables).
Proof. apply distinct_b_NoDup. vm_compute. reflexivity. Qed.

Lemma constraint_names_distinct (a : Args) :
  NoDup (map fst (p_constraints (chavi_problem a))).
Proof.
  unfold chavi_problem; cbn [p_constraints]. rewrite !map_app, !map_map.
  unfold balance_constraint, supply_constraint, canal_constraint, zero_deficit_constraint.
  cbn [fst]. apply distinct_b_NoDup. vm_compute. reflexivity.
Qed.

Example allowed_arcs_count : length allowed_arcs = 204%nat.
Proof. vm_compute. reflexivity. Qed.

Example secs_Feb : dict_find "Feb" secs = Some 2419200%Z.
Proof. reflexivity. Qed.

Example lower_GLPK : str_lower "GLPK_Cmd" = "glpk_cmd".
Proof. reflexivity. Qed.

Example lower_kelvin : str_lower ("GLP" ++ kelvin_sign) = "glpk".
Proof. reflexivity. Qed.

Example kelvin_name_is_glpk :
  choose_solver idle_env (with_solver_name (Some ("glp" ++ kelvin_sign ++ "_CMD")) default_args)
  = Some (GLPK_CMD false None).
Proof. reflexivity. Qed.

Example longer_name_is_cbc :
  choose_solver idle_env (with_solver_name (Some "glpk ") default_args)
  = Some (PULP_CBC_CMD false None).
Proof. reflexivity. Qed.

Example value_without_zero_terms (v : LpVariable) :
  lp_value {| sol_status := LpStatusNotSolved; varValue := fun _ => None |}
           (lpSum [LpScale 0 (LpVar v); LpNum 3])
  = Some (0 + (3 + 0)).
Proof. reflexivity. Qed.

Example glpk_with_time_limit :
  choose_solver idle_env
    {| scenario := "S2"; mult_pozos_chao := 1.5; mult_pozos_viru := 1.2;
       penalty_usd_hm3 := 100000000; weight_ptap := 100.0; weight_ind_pec := 50.0;
       weight_agro := 1.0; cap_santa_m3s := 88.0;
       solver_name := Some "GLPK"; solver_time_limit := Some 30%Z; solver_msg := true |}
  = Some (GLPK_CMD true (Some ["--tmlim 30"])).
Proof. reflexivity. Qed.

Example unknown_solver_is_cbc :
  choose_solver idle_env
    {| scenario := "S1"; mult_pozos_chao := 1.0; mult_pozos_viru := 1.0;
       penalty_usd_hm3 := 100000000; weight_ptap := 100.0; weight_ind_pec := 50.0;
       weight_agro := 1.0; cap_santa_m3s := 88.0;
       solver_name := Some "gurobi"; solver_time_limit := None; solver_msg := false |}
  = Some (PULP_CBC_CMD false None).
Proof. reflexivity. Qed.

Example idle_run_status :
  match snd (build_and_solve idle_env default_args) with
  | inr r => r_status r = "Not Solved" /\ r_objective r = None
  | inl _ => False
  end.
Proof. vm_compute. split; reflexivity. Qed.

Example unrecognised_run :
  snd (build_and_solve idle_env (with_scenario "s1" default_args)) = inl (KeyError ["s1"]).
Proof. vm_compute. reflexivity. Qed.
(* ================================================================== *)
(** ** Feasible assignments of the built model *)


Lemma sum_over_nonneg {A : Type} (l : list A) (f : A -> Q) :
  (forall k, In k l -> 0 <= f k) -> 0 <= sum_over l f.
Proof.
  induction l as [| k l IH]; intros H; cbn [sum_over].
  - apply Qle_refl.
  - assert (H1 : 0 <= f k) by (apply H; left; reflexivity).
    assert (H2 : 0 <= sum_over l f) by (apply IH; intros k' Hk'; apply H; right; exact Hk').
    lra.
Qed.

Lemma valid_arc_in_arcs (i j m : string) :
  In i sources -> In j demands -> In m months -> valid_arc i j = true -> In (i, j, m) arcs.
Proof.
  intros Hi Hj Hm H. apply in_arcs. unfold arc_rule; cbn [fst snd].
  split; [exact Hm |].
  unfold valid_arc in H. apply orb_true_iff in H. destruct H as [H | H].
  - apply orb_true_iff in H. destruct H as [H | H].
    + left. apply String.eqb_eq in H. split; assumption.
    + right. left. apply andb_true_iff in H. destruct H as [H1 H2].
      apply String.eqb_eq in H1. apply str_in_In in H2. split; assumption.
  - right. right. apply andb_true_iff in H. destruct H as [H1 H2].
    apply String.eqb_eq in H1. apply str_in_In in H2. split; assumption.
Qed.

Lemma feasible_x_nonneg (val : string -> Q) (a : Args) (i j m : string) :
  feasible val (chavi_store a) -> In (i, j, m) arcs -> 0 <= val (x_name i j m).
Proof.
  intros [Hv _] Hin.
  assert (Hb : in_bounds val (x_var i j m)).
  { apply Hv. cbn [chavi_store st_vars]. apply in_chavi_variables.
    left. exists (i, j, m). split; [exact Hin | reflexivity]. }
  exact (proj1 Hb).
Qed.

Lemma feasible_u_nonneg (val : string -> Q) (a : Args) (j m : string) :
  feasible val (chavi_store a) -> In j demands -> In m months -> 0 <= val (u_name j m).
Proof.
  intros [Hv _] Hj Hm.
  assert (Hb : in_bounds val (u_var j m)).
  { apply Hv. cbn [chavi_store st_vars]. apply in_chavi_variables.
    right. exists j, m. split; [exact Hj |]. split; [exact Hm | reflexivity]. }
  exact (proj1 Hb).
Qed.

Lemma feasible_inflow_nonneg (val : string -> Q) (a : Args) (j m : string) :
  feasible val (chavi_store a) -> In j demands -> In m months -> 0 <= inflow val j m.
Proof.
  intros Hf Hj Hm. unfold inflow. apply sum_over_nonneg. intros i Hi.
  apply filter_In in Hi. destruct Hi as [Hi Hv].
  apply (feasible_x_nonneg val a i j m Hf). apply valid_arc_in_arcs; assumption.
Qed.


Lemma efficiency_range (sc j : string) :
  recognised sc -> In j demands -> 0 < efficiency sc j /\ efficiency sc j <= 1.
Proof.
  intros [-> | ->] Hj; cbv [demands In] in Hj;
    repeat (destruct Hj as [<- | Hj]); try contradiction;
    split; vm_compute; first [reflexivity | discriminate].
Qed.

(** X1. In a feasible assignment of the built model every deficit lies
    between zero and the converted demand, and what is delivered to a
    demand (efficiency times inflow) lies between zero and that demand: no
    demand is served beyond its requirement. *)
Theorem feasible_deficit_between_zero_and_demand
    (env : PulpEnv) (a : Args) (val : string -> Q) (j m : string) :
  recognised (scenario a) -> In j demands -> In m months ->
  feasible val (fst (build_and_solve env a)) ->
  0 <= val (u_name j m) /\ val (u_name j m) <= demand_volume j m /\
  0 <= efficiency (scenario a) j * inflow val j m /\
  efficiency (scenario a) j * inflow val j m <= demand_volume j m.
Proof.
  intros Hsc Hj Hm Hf. rewrite (store_recognised env a Hsc) in Hf.
  assert (Hu := feasible_u_nonneg val a j m Hf Hj Hm).
  assert (Hx := feasible_inflow_nonneg val a j m Hf Hj Hm).
  destruct (efficiency_range (scenario a) j Hsc Hj) as [He _].
  assert (Hb := feasible_holds val a _ Hf (in_balance a j m Hj Hm)).
  apply (proj1 (holds_balance val a j m)) in Hb.
  assert (Hp : 0 <= efficiency (scenario a) j * inflow val j m).
  { apply Qmult_le_0_compat; [apply Qlt_le_weak; exact He | exact Hx]. }
  rewrite (Qmult_comm (inflow val j m)) in Hb.
  repeat split; lra.
Qed.

Lemma feasible_deficit_between_zero_and_demand_witness :
  recognised (scenario default_args) /\ In "Chao" demands /\ In "Ene" months /\
  feasible baseline (fst (build_and_solve idle_env default_args)) /\
  0 <= baseline (u_name "Chao" "Ene") /\
  baseline (u_name "Chao" "Ene") <= demand_volume "Chao" "Ene" /\
  0 <= efficiency (scenario default_args) "Chao" * inflow baseline "Chao" "Ene" /\
  efficiency (scenario default_args) "Chao" * inflow baseline "Chao" "Ene"
  <= demand_volume "Chao" "Ene".
Proof.
  assert (Hsc : recognised (scenario default_args)) by (left; reflexivity).
  assert (Hj : In "Chao" demands) by (left; reflexivity).
  assert (Hm : In "Ene" months) by (left; reflexivity).
  assert (Hf := default_model_is_feasible).
  split; [exact Hsc |]. split; [exact Hj |]. split; [exact Hm |]. split; [exact Hf |].
  exact (feasible_deficit_between_zero_and_demand
           idle_env default_args baseline "Chao" "Ene" Hsc Hj Hm Hf).
Defined.

Lemma inflow_santa_only (val : string -> Q) (j m : string) :
  In j demands -> j <> "Chao" -> j <> "Viru" ->
  inflow val j m = val (x_name "Santa" j m) + 0.
Proof.
  intros Hj H1 H2. cbv [demands In] in Hj.
  repeat (destruct Hj as [<- | Hj]); try contradiction; try reflexivity.
Qed.

Lemma priority_in_demands (j : string) : In j priority_demands -> In j demands.
Proof.
  intros Hj. cbv [priority_demands In] in Hj.
  repeat (destruct Hj as [<- | Hj]); try contradiction; cbv [demands In]; tauto.
Qed.

Lemma priority_efficiency (sc j : string) :
  recognised sc -> In j priority_demands -> efficiency sc j == 1.
Proof.
  intros [-> | ->] Hj; cbv [priority_demands In] in Hj;
    repeat (destruct Hj as [<- | Hj]); try contradiction; vm_compute; reflexivity.
Qed.

Lemma priority_not_local (j : string) :
  In j priority_demands -> j <> "Chao" /\ j <> "Viru".
Proof.
  intros Hj. cbv [priority_demands In] in Hj.
  repeat (destruct Hj as [<- | Hj]); try contradiction; split; discriminate.
Qed.

Lemma feasible_priority_santa (val : string -> Q) (a : Args) (j m : string) :
  recognised (scenario a) -> In j priority_demands -> In m months ->
  feasible val (chavi_store a) ->
  val (x_name "Santa" j m) == demand_volume j m.
Proof.
  intros Hsc Hj Hm Hf.
  assert (Hd := priority_in_demands j Hj).
  destruct (priority_not_local j Hj) as [N1 N2].
  assert (Hb := feasible_holds val a _ Hf (in_balance a j m Hd Hm)).
  apply (proj1 (holds_balance val a j m)) in Hb.
  assert (Hz := feasible_holds val a _ Hf (in_zero_deficit a j m Hj Hm)).
  apply (proj1 (holds_zero_deficit val j m)) in Hz.
  rewrite (inflow_santa_only val j m Hd N1 N2) in Hb.
  rewrite (priority_efficiency (scenario a) j Hsc Hj), Hz in Hb.
  rewrite <- Hb. ring.
Qed.

(** X2. Every demand other than Chao and Viru can only be served by
    Santa: in a feasible assignment its balance reads
    [efficiency * x(Santa,j,m) + u(j,m) == demand], and for the four
    priority demands the allocation from Santa equals the converted demand
    exactly. *)
Theorem santa_alone_serves_non_local_demands
    (env : PulpEnv) (a : Args) (val : string -> Q) (j m : string) :
  recognised (scenario a) -> In j demands -> j <> "Chao" -> j <> "Viru" -> In m months ->
  feasible val (fst (build_and_solve env a)) ->
  efficiency (scenario a) j * val (x_name "Santa" j m) + val (u_name j m)
  == demand_volume j m /\
  (In j ["PTAP_Trujillo"; "PTAP_Chao"; "Industria"; "Pecuario"] ->
   val (x_name "Santa" j m) == demand_volume j m).
Proof.
  intros Hsc Hj N1 N2 Hm Hf. rewrite (store_recognised env a Hsc) in Hf. split.
  - assert (Hb := feasible_holds val a _ Hf (in_balance a j m Hj Hm)).
    apply (proj1 (holds_balance val a j m)) in Hb. rewrite (inflow_santa_only val j m Hj N1 N2) in Hb.
    rewrite <- Hb. ring.
  - intros Hp. exact (feasible_priority_santa val a j m Hsc Hp Hm Hf).
Qed.

Lemma santa_alone_serves_non_local_demands_witness :
  recognised (scenario default_args) /\ In "Industria" demands /\
  "Industria" <> "Chao" /\ "Industria" <> "Viru" /\ In "Ene" months /\
  feasible baseline (fst (build_and_solve idle_env default_args)) /\
  efficiency (scenario default_args) "Industria" * baseline (x_name "Santa" "Industria" "Ene")
  + baseline (u_name "Industria" "Ene")
  == demand_volume "Industria" "Ene".
Proof.
  assert (Hsc : recognised (scenario default_args)) by (left; reflexivity).
  assert (Hj : In "Industria" demands) by (do 8 right; left; reflexivity).
  assert (N1 : "Industria" <> "Chao") by discriminate.
  assert (N2 : "Industria" <> "Viru") by discriminate.
  assert (Hm : In "Ene" months) by (left; reflexivity).
  assert (Hf := default_model_is_feasible).
  split; [exact Hsc |]. split; [exact Hj |]. split; [exact N1 |]. split; [exact N2 |].
  split; [exact Hm |]. split; [exact Hf |].
  exact (proj1 (santa_alone_serves_non_local_demands
                  idle_env default_args baseline "Industria" "Ene" Hsc Hj N1 N2 Hm Hf)).
Defined.

Lemma seconds_positive (m : string) : In m months -> 0 < inject_Z (seconds_in_month m) / 1000000.
Proof.
  intros Hm. cbv [months In] in Hm.
  repeat (destruct Hm as [<- | Hm]); try contradiction; vm_compute; reflexivity.
Qed.

Lemma monthly_volume_scale (flow : Q) (m : string) :
  monthly_volume flow m == flow * (inject_Z (seconds_in_month m) / 1000000).
Proof. unfold monthly_volume. field. Qed.

Lemma supply_volume_nonneg (i m : string) :
  In i sources -> In m months -> 0 <= supply_volume i m.
Proof.
  intros Hi Hm. cbv [sources In] in Hi. cbv [months In] in Hm.
  repeat (destruct Hi as [<- | Hi]); try contradiction;
    repeat (destruct Hm as [<- | Hm]); try contradiction;
    vm_compute; discriminate.
Qed.



Lemma sum_over_scale {A : Type} (l : list A) (f : A -> Q) (c : Q) :
  sum_over l (fun k => f k * c) == sum_over l f * c.
Proof.
  induction l as [| k l IH]; cbn [sum_over].
  - ring.
  - rewrite IH. ring.
Qed.


















Lemma sector_weight_ext (a a' : Args) (j : string) :
  weight_ptap a' == weight_ptap a -> weight_ind_pec a' == weight_ind_pec a ->
  weight_agro a' == weight_agro a ->
  sector_weight a' j == sector_weight a j.
Proof.
  intros H1 H2 H3. unfold sector_weight.
  destruct (str_in j ["PTAP_Trujillo"; "PTAP_Chao"]); [exact H1 |].
  destruct (str_in j ["Industria"; "Pecuario"]); [exact H2 | exact H3].
Qed.

Lemma adjusted_supply_mono (a a' : Args) (i m : string) :
  In i sources -> In m months ->
  mult_pozos_chao a <= mult_pozos_chao a' -> mult_pozos_viru a <= mult_pozos_viru a' ->
  adjusted_supply a i m <= adjusted_supply a' i m.
Proof.
  intros Hi Hm Hc Hv. assert (Hs := supply_volume_nonneg i m Hi Hm).
  unfold adjusted_supply.
  destruct (String.eqb i "Pozos_Chao").
  { rewrite !(Qmult_comm (supply_volume i m)). apply Qmult_le_compat_r; assumption. }
  destruct (String.eqb i "Pozos_Viru").
  { rewrite !(Qmult_comm (supply_volume i m)). apply Qmult_le_compat_r; assumption. }
  apply Qle_refl.
Qed.

Lemma canal_capacity_mono (a a' : Args) (m : string) :
  In m months -> cap_santa_m3s a <= cap_santa_m3s a' ->
  canal_capacity a m <= canal_capacity a' m.
Proof.
  intros Hm Hc. unfold canal_capacity. rewrite !monthly_volume_scale.
  apply Qmult_le_compat_r; [exact Hc |]. apply Qlt_le_weak. apply seconds_positive. exact Hm.
Qed.

Lemma feasible_mono (a a' : Args) (val : string -> Q) :
  scenario a' = scenario a ->
  mult_pozos_chao a <= mult_pozos_chao a' -> mult_pozos_viru a <= mult_pozos_viru a' ->
  cap_santa_m3s a <= cap_santa_m3s a' ->
  feasible val (chavi_store a) -> feasible val (chavi_store a').
Proof.
  intros Hsc Hc Hv Hcap Hf. split.
  - intros v Hin. exact (proj1 Hf v Hin).
  - intros p nc Hp Hin. cbn [chavi_store st_prob] in Hp. inversion Hp; subst p; clear Hp.
    unfold chavi_problem in Hin; cbn [p_constraints] in Hin.
    apply in_app_or in Hin. destruct Hin as [Hin | Hin].
    { apply in_map_iff in Hin. destruct Hin as [[j m] [<- Hin]].
      apply in_for_for in Hin. destruct Hin as [Hj Hm]. cbn [fst snd].
      apply (proj2 (holds_balance val a' j m)). rewrite Hsc.
      apply (proj1 (holds_balance val a j m)).
      exact (feasible_holds val a _ Hf (in_balance a j m Hj Hm)). }
    apply in_app_or in Hin. destruct Hin as [Hin | Hin].
    { apply in_map_iff in Hin. destruct Hin as [[i m] [<- Hin]].
      apply in_for_for in Hin. destruct Hin as [Hi Hm]. cbn [fst snd].
      apply (proj2 (holds_supply val a' i m)).
      assert (H := proj1 (holds_supply val a i m)
                     (feasible_holds val a _ Hf (in_supply a i m Hi Hm))).
      assert (H' := adjusted_supply_mono a a' i m Hi Hm Hc Hv). lra. }
    apply in_app_or in Hin. destruct Hin as [Hin | Hin].
    { apply in_map_iff in Hin. destruct Hin as [m [<- Hm]].
      apply (proj2 (holds_canal val a' m)).
      assert (H := proj1 (holds_canal val a m)
                     (feasible_holds val a _ Hf (in_canal a m Hm))).
      assert (H' := canal_capacity_mono a a' m Hm Hcap). lra. }
    apply in_map_iff in Hin. destruct Hin as [[j m] [<- Hin]].
    apply in_for_for in Hin. destruct Hin as [Hj Hm]. cbn [fst snd].
    exact (feasible_holds val a _ Hf (in_zero_deficit a j m Hj Hm)).
Qed.

Lemma objective_ext (a a' : Args) (val : string -> Q) :
  scenario a' = scenario a -> penalty_usd_hm3 a' == penalty_usd_hm3 a ->
  weight_ptap a' == weight_ptap a -> weight_ind_pec a' == weight_ind_pec a ->
  weight_agro a' == weight_agro a ->
  lp_eval val (objective_expr a') == lp_eval val (objective_expr a).
Proof.
  intros Hsc Hp H1 H2 H3. rewrite !lp_eval_objective, Hsc.
  apply Qplus_comp; [reflexivity |]. apply Qopp_comp.
  apply sum_over_ext. intros jm _.
  rewrite Hp, (sector_weight_ext a a' (fst jm) H1 H2 H3). reflexivity.
Qed.

(** X4. Raising a well multiplier or the canal capacity, the scenario
    staying the same, keeps every feasible assignment feasible, whatever
    the penalty rate and the weights; when these are unchanged too, the
    objective has the same value, so the best net benefit cannot go
    down. *)
Theorem more_supply_keeps_feasible_assignments
    (env : PulpEnv) (a a' : Args) (val : string -> Q) :
  recognised (scenario a) -> scenario a' = scenario a ->
  mult_pozos_chao a <= mult_pozos_chao a' -> mult_pozos_viru a <= mult_pozos_viru a' ->
  cap_santa_m3s a <= cap_santa_m3s a' ->
  feasible val (fst (build_and_solve env a)) ->
  feasible val (fst (build_and_solve env a')) /\
  (penalty_usd_hm3 a' == penalty_usd_hm3 a ->
   weight_ptap a' == weight_ptap a -> weight_ind_pec a' == weight_ind_pec a ->
   weight_agro a' == weight_agro a ->
   objective_value val (fst (build_and_solve env a'))
   == objective_value val (fst (build_and_solve env a))).
Proof.
  intros Hsc Hsc' Hc Hv Hcap Hf.
  assert (Hrec' : recognised (scenario a')) by (rewrite Hsc'; exact Hsc).
  rewrite (store_recognised env a Hsc) in *. rewrite (store_recognised env a' Hrec').
  split.
  - exact (feasible_mono a a' val Hsc' Hc Hv Hcap Hf).
  - intros Hp H1 H2 H3. unfold objective_value; cbn [chavi_store st_prob chavi_problem p_objective snd].
    exact (objective_ext a a' val Hsc' Hp H1 H2 H3).
Qed.

Lemma more_supply_keeps_feasible_assignments_witness :
  recognised (scenario default_args) /\
  scenario raised_args = scenario default_args /\
  mult_pozos_chao default_args < mult_pozos_chao raised_args /\
  mult_pozos_viru default_args < mult_pozos_viru raised_args /\
  cap_santa_m3s default_args < cap_santa_m3s raised_args /\
  feasible served (fst (build_and_solve idle_env default_args)) /\
  feasible served (fst (build_and_solve idle_env raised_args)) /\
  objective_value served (fst (build_and_solve idle_env raised_args))
  == objective_value served (fst (build_and_solve idle_env default_args)).
Proof.
  assert (Hsc : recognised (scenario default_args)) by (left; reflexivity).
  assert (H1 : scenario raised_args = scenario default_args) by reflexivity.
  assert (H2 : mult_pozos_chao default_args < mult_pozos_chao raised_args)
    by (vm_compute; reflexivity).
  assert (H3 : mult_pozos_viru default_args < mult_pozos_viru raised_args)
    by (vm_compute; reflexivity).
  assert (H4 : cap_santa_m3s default_args < cap_santa_m3s raised_args)
    by (vm_compute; reflexivity).
  assert (Hf := served_is_feasible).
  split; [exact Hsc |]. split; [exact H1 |]. split; [exact H2 |]. split; [exact H3 |].
  split; [exact H4 |]. split; [exact Hf |].
  destruct (more_supply_keeps_feasible_assignments
              idle_env default_args raised_args served
              Hsc H1 (Qlt_le_weak _ _ H2) (Qlt_le_weak _ _ H3) (Qlt_le_weak _ _ H4) Hf)
    as [G1 G2].
  split; [exact G1 |].
  apply G2; reflexivity.
Defined.

(** X5. In every built model the variables have pairwise distinct names
    and the 276 constraints have pairwise distinct names, so an assignment
    by name tells the variables apart and no constraint name overlaps. *)
Theorem built_names_are_distinct (env : PulpEnv) (a : Args) :
  recognised (scenario a) ->
  NoDup (map v_name (st_vars (fst (build_and_solve env a)))) /\
  exists p, st_prob (fst (build_and_solve env a)) = Some p /\
            NoDup (map fst (p_constraints p)) /\
            length (p_constraints p) = 276%nat.
Proof.
  intros Hsc. rewrite (store_recognised env a Hsc). split.
  - exact variable_names_distinct.
  - exists (chavi_problem a). split; [reflexivity |]. split.
    + exact (constraint_names_distinct a).
    + unfold chavi_problem; cbn [p_constraints].
      rewrite !length_app, !length_map. reflexivity.
Qed.

Lemma built_names_are_distinct_witness :
  recognised (scenario default_args) /\
  NoDup (map v_name (st_vars (fst (build_and_solve idle_env default_args)))).
Proof.
  assert (Hsc : recognised (scenario default_args)) by (left; reflexivity).
  split; [exact Hsc |].
  exact (proj1 (built_names_are_distinct idle_env default_args Hsc)).
Defined.

(* ================================================================== *)
(** ** From scenario S1 to scenario S2 *)

Lemma dict_find_map_key {A V : Type} (key : A -> string) (f : A -> V) (l : list A) (k : A) :
  NoDup (map key l) -> In k l ->
  dict_find (key k) (map (fun x => (key x, f x)) l) = Some (f k).
Proof.
  induction l as [| x l IH]; intros Hnd Hin; [destruct Hin |].
  cbn [map dict_find]. cbn [map] in Hnd. inversion Hnd as [| ? ? Hx Hnd']; subst.
  change (key_eqb (key k) (key x)) with (String.eqb (key k) (key x)).
  destruct Hin as [-> | Hin].
  - rewrite String.eqb_refl. reflexivity.
  - destruct (String.eqb (key k) (key x)) eqn:E.
    + apply String.eqb_eq in E. exfalso. apply Hx. rewrite <- E. apply in_map. exact Hin.
    + exact (IH Hnd' Hin).
Qed.

Lemma dict_find_map_other {A V : Type} (key : A -> string) (f : A -> V) (l : list A) (n : string) :
  (forall x, In x l -> key x <> n) ->
  dict_find n (map (fun x => (key x, f x)) l) = None.
Proof.
  induction l as [| x l IH]; intros H; [reflexivity |].
  cbn [map dict_find].
  change (key_eqb n (key x)) with (String.eqb n (key x)).
  destruct (String.eqb n (key x)) eqn:E.
  - apply String.eqb_eq in E. exfalso. apply (H x); [left; reflexivity | symmetry; exact E].
  - apply IH. intros y Hy. apply H. right. exact Hy.
Qed.

Lemma x_names_distinct : NoDup (map (fun ijm : arc => v_name (x_of_arc ijm)) arcs).
Proof.
  assert (H := variable_names_distinct). unfold chavi_variables in H.
  rewrite map_app, map_map in H. exact (NoDup_app_remove_r _ _ H).
Qed.

Lemma rescaled_x (sc sc' : string) (val : string -> Q) (i j m : string) :
  In (i, j, m) arcs ->
  rescaled sc sc' val (x_name i j m) = val (x_name i j m) * efficiency_ratio sc sc' j.
Proof.
  intros Hin. unfold rescaled, ratio_table.
  change (x_name i j m) with (v_name (x_of_arc (i, j, m))).
  rewrite (dict_find_map_key (fun ijm : arc => v_name (x_of_arc ijm))
             (fun ijm : arc => efficiency_ratio sc sc' (snd (fst ijm)))
             arcs (i, j, m) x_names_distinct Hin).
  reflexivity.
Qed.

Lemma rescaled_u (sc sc' : string) (val : string -> Q) (j m : string) :
  rescaled sc sc' val (u_name j m) = val (u_name j m).
Proof.
  unfold rescaled, ratio_table.
  rewrite (dict_find_map_other (fun ijm : arc => v_name (x_of_arc ijm))).
  - reflexivity.
  - intros [[i' j'] m'] _. cbn. discriminate.
Qed.

Lemma ratio_S1_S2 (j : string) :
  In j demands ->
  0 < efficiency_ratio "S1" "S2" j /\ efficiency_ratio "S1" "S2" j <= 1 /\
  efficiency "S2" j * efficiency_ratio "S1" "S2" j == efficiency "S1" j.
Proof.
  intros Hj. cbv [demands In] in Hj.
  repeat (destruct Hj as [<- | Hj]); try contradiction;
    (split; [vm_compute; reflexivity | split; [vm_compute; discriminate | vm_compute; reflexivity]]).
Qed.

Lemma unit_cost_nonneg (i : string) : In i sources -> 0 <= unit_cost i.
Proof.
  intros Hi. cbv [sources In] in Hi.
  repeat (destruct Hi as [<- | Hi]); try contradiction; vm_compute; discriminate.
Qed.

Lemma sum_over_le {A : Type} (l : list A) (f g : A -> Q) :
  (forall k, In k l -> f k <= g k) -> sum_over l f <= sum_over l g.
Proof.
  induction l as [| k l IH]; intros H; cbn [sum_over].
  - apply Qle_refl.
  - apply Qplus_le_compat.
    + apply H. left. reflexivity.
    + apply IH. intros k' Hk'. apply H. right. exact Hk'.
Qed.

Lemma arcs_components (i j m : string) :
  In (i, j, m) arcs -> In i sources /\ In j demands /\ In m months.
Proof.
  intros H. apply in_arcs in H. unfold arc_rule in H; cbn [fst snd] in H.
  destruct H as [Hm [[-> Hj] | [[Hi ->] | [Hi ->]]]].
  - split; [cbv [sources In]; tauto | tauto].
  - split; [| split; [cbv [demands In]; tauto | exact Hm]].
    cbv [chao_sources In] in Hi. cbv [sources In]. tauto.
  - split; [| split; [cbv [demands In]; tauto | exact Hm]].
    cbv [viru_sources In] in Hi. cbv [sources In]. tauto.
Qed.

Lemma shrink_nonneg (x r : Q) : 0 <= x -> 0 < r -> r <= 1 -> 0 <= x * r /\ x * r <= x.
Proof.
  intros Hx Hr Hr1. split.
  - apply Qmult_le_0_compat; [exact Hx | apply Qlt_le_weak; exact Hr].
  - setoid_replace x with (x * 1) at 2 by ring.
    rewrite !(Qmult_comm x). apply Qmult_le_compat_r; assumption.
Qed.

Section S1_to_S2.

Variable a : Args.
Variable val : string -> Q.
Hypothesis HS1 : scenario a = "S1".
Hypothesis Hf : feasible val (chavi_store a).

Let a' : Args := with_scenario "S2" a.
Let val' : string -> Q := rescaled "S1" "S2" val.

Lemma rescaled_x_bounds (i j m : string) :
  In (i, j, m) arcs ->
  0 <= val' (x_name i j m) /\ val' (x_name i j m) <= val (x_name i j m).
Proof.
  intros Hin. unfold val'. rewrite (rescaled_x "S1" "S2" val i j m Hin).
  destruct (arcs_components i j m Hin) as [_ [Hj _]].
  destruct (ratio_S1_S2 j Hj) as [R0 [R1 _]].
  apply shrink_nonneg; [exact (feasible_x_nonneg val a i j m Hf Hin) | exact R0 | exact R1].
Qed.

Lemma rescaled_inflow (j m : string) :
  In j demands -> In m months ->
  inflow val' j m == inflow val j m * efficiency_ratio "S1" "S2" j.
Proof.
  intros Hj Hm. unfold inflow. rewrite <- sum_over_scale.
  apply sum_over_ext. intros i Hi. apply filter_In in Hi. destruct Hi as [Hi Hv].
  unfold val'. rewrite (rescaled_x "S1" "S2" val i j m (valid_arc_in_arcs i j m Hi Hj Hm Hv)).
  reflexivity.
Qed.

Lemma rescaled_outflow (i m : string) :
  In i sources -> In m months -> outflow val' i m <= outflow val i m.
Proof.
  intros Hi Hm. unfold outflow. apply sum_over_le. intros j Hj.
  apply filter_In in Hj. destruct Hj as [Hj Hv].
  exact (proj2 (rescaled_x_bounds i j m (valid_arc_in_arcs i j m Hi Hj Hm Hv))).
Qed.

Lemma rescaled_feasible : feasible val' (chavi_store a').
Proof.
  assert (Hsc : recognised (scenario a)) by (left; exact HS1).
  split.
  - intros v Hin. cbn [chavi_store st_vars] in Hin. apply in_chavi_variables in Hin.
    destruct Hin as [[[[i j] m] [Hin ->]] | [j [m [Hj [Hm ->]]]]].
    + split; [| exact I]. cbn [x_of_arc x_var v_lowBound v_name fst snd].
      exact (proj1 (rescaled_x_bounds i j m Hin)).
    + split; [| exact I]. cbn [u_var v_lowBound v_name]. unfold val'.
      rewrite rescaled_u. exact (feasible_u_nonneg val a j m Hf Hj Hm).
  - intros p nc Hp Hin. cbn [chavi_store st_prob] in Hp. inversion Hp; subst p; clear Hp.
    unfold chavi_problem in Hin; cbn [p_constraints] in Hin.
    apply in_app_or in Hin. destruct Hin as [Hin | Hin].
    { apply in_map_iff in Hin. destruct Hin as [[j m] [<- Hin]].
      apply in_for_for in Hin. destruct Hin as [Hj Hm]. cbn [fst snd].
      apply (proj2 (holds_balance val' a' j m)).
      change (scenario a') with "S2".
      assert (Hb := proj1 (holds_balance val a j m)
                      (feasible_holds val a _ Hf (in_balance a j m Hj Hm))).
      rewrite HS1 in Hb. rewrite (rescaled_inflow j m Hj Hm).
      unfold val'. rewrite rescaled_u.
      destruct (ratio_S1_S2 j Hj) as [_ [_ E]]. rewrite <- Hb, <- E. ring. }
    apply in_app_or in Hin. destruct Hin as [Hin | Hin].
    { apply in_map_iff in Hin. destruct Hin as [[i m] [<- Hin]].
      apply in_for_for in Hin. destruct Hin as [Hi Hm]. cbn [fst snd].
      apply (proj2 (holds_supply val' a' i m)).
      assert (H := proj1 (holds_supply val a i m)
                     (feasible_holds val a _ Hf (in_supply a i m Hi Hm))).
      assert (H' := rescaled_outflow i m Hi Hm).
      change (adjusted_supply a' i m) with (adjusted_supply a i m). lra. }
    apply in_app_or in Hin. destruct Hin as [Hin | Hin].
    { apply in_map_iff in Hin. destruct Hin as [m [<- Hm]].
      apply (proj2 (holds_canal val' a' m)).
      assert (H := proj1 (holds_canal val a m)
                     (feasible_holds val a _ Hf (in_canal a m Hm))).
      assert (H' := rescaled_outflow "Santa" m (or_introl eq_refl) Hm).
      change (canal_capacity a' m) with (canal_capacity a m). lra. }
    apply in_map_iff in Hin. destruct Hin as [[j m] [<- Hin]].
    apply in_for_for in Hin. destruct Hin as [Hj Hm]. cbn [fst snd].
    apply (proj2 (holds_zero_deficit val' j m)). unfold val'. rewrite rescaled_u.
    apply (proj1 (holds_zero_deficit val j m)).
    exact (feasible_holds val a _ Hf (in_zero_deficit a j m Hj Hm)).
Qed.

Lemma rescaled_objective :
  lp_eval val (objective_expr a) <= lp_eval val' (objective_expr a').
Proof.
  rewrite !lp_eval_objective. change (scenario a') with "S2". rewrite HS1.
  apply Qplus_le_compat.
  - apply sum_over_le. intros [[i j] m] Hin. cbn [fst snd].
    destruct (arcs_components i j m Hin) as [Hi [Hj Hm]].
    unfold val'. rewrite (rescaled_x "S1" "S2" val i j m Hin).
    destruct (ratio_S1_S2 j Hj) as [R0 [R1 E]].
    assert (Hx := feasible_x_nonneg val a i j m Hf Hin).
    assert (Hc := unit_cost_nonneg i Hi).
    destruct (shrink_nonneg (val (x_name i j m)) (efficiency_ratio "S1" "S2" j) Hx R0 R1)
      as [S0 S1].
    setoid_replace ((efficiency "S2" j * unit_value j - unit_cost i)
                    * (val (x_name i j m) * efficiency_ratio "S1" "S2" j))
      with (efficiency "S2" j * efficiency_ratio "S1" "S2" j * unit_value j
            * val (x_name i j m)
            - unit_cost i * (val (x_name i j m) * efficiency_ratio "S1" "S2" j)) by ring.
    rewrite E.
    assert (Hm' : unit_cost i * (val (x_name i j m) * efficiency_ratio "S1" "S2" j)
                  <= unit_cost i * val (x_name i j m)).
    { rewrite !(Qmult_comm (unit_cost i)). apply Qmult_le_compat_r; assumption. }
    lra.
  - apply Qopp_le_compat. apply Qle_lteq. right.
    apply sum_over_ext. intros jm _. unfold val'. rewrite rescaled_u. reflexivity.
Qed.

End S1_to_S2.

(** X6. From scenario S1 to scenario S2, all else equal: scaling each
    allocation of a feasible assignment by the ratio of the two
    efficiencies gives a feasible assignment of the S2 model with the same
    deficits, no larger allocations and an objective that is not
    smaller. *)
Theorem switching_to_S2_keeps_every_deficit_pattern
    (env : PulpEnv) (a : Args) (val : string -> Q) :
  scenario a = "S1" ->
  feasible val (fst (build_and_solve env a)) ->
  let a' := with_scenario "S2" a in
  let val' := rescaled "S1" "S2" val in
  feasible val' (fst (build_and_solve env a')) /\
  (forall j m, val' (u_name j m) = val (u_name j m)) /\
  (forall i j m, In (i, j, m) allowed_arcs -> val' (x_name i j m) <= val (x_name i j m)) /\
  objective_value val (fst (build_and_solve env a))
  <= objective_value val' (fst (build_and_solve env a')).
Proof.
  intros HS1 Hf a' val'.
  assert (Hsc : recognised (scenario a)) by (left; exact HS1).
  assert (Hsc' : recognised (scenario a')) by (right; reflexivity).
  rewrite (store_recognised env a Hsc) in *. rewrite (store_recognised env a' Hsc').
  split; [exact (rescaled_feasible a val HS1 Hf) |].
  split; [intros j m; apply rescaled_u |].
  split.
  - intros i j m Hin. rewrite allowed_arcs_arcs in Hin.
    exact (proj2 (rescaled_x_bounds a val Hf i j m Hin)).
  - unfold objective_value; cbn [chavi_store st_prob chavi_problem p_objective snd].
    exact (rescaled_objective a val HS1 Hf).
Qed.

Lemma switching_to_S2_keeps_every_deficit_pattern_witness :
  scenario default_args = "S1" /\
  feasible served (fst (build_and_solve idle_env default_args)) /\
  served (x_name "Santa" "Chao" "Ene") == 1 /\
  rescaled "S1" "S2" served (x_name "Santa" "Chao" "Ene") == 0.5 /\
  feasible (rescaled "S1" "S2" served)
           (fst (build_and_solve idle_env (with_scenario "S2" default_args))) /\
  rescaled "S1" "S2" served (u_name "Chao" "Ene") = served (u_name "Chao" "Ene") /\
  objective_value served (fst (build_and_solve idle_env default_args))
  <= objective_value (rescaled "S1" "S2" served)
                     (fst (build_and_solve idle_env (with_scenario "S2" default_args))).
Proof.
  assert (HS1 : scenario default_args = "S1") by reflexivity.
  assert (Hf := served_is_feasible).
  split; [exact HS1 |]. split; [exact Hf |].
  split; [vm_compute; reflexivity |]. split; [vm_compute; reflexivity |].
  destruct (switching_to_S2_keeps_every_deficit_pattern idle_env default_args served HS1 Hf)
    as [H1 [H2 [_ H4]]].
  split; [exact H1 |]. split; [exact (H2 "Chao" "Ene") | exact H4].
Defined.

(* ================================================================== *)
(** ** The objective is bounded *)

Lemma sum_over_ge_term {A : Type} (l : list A) (f : A -> Q) (k : A) :
  In k l -> (forall k', In k' l -> 0 <= f k') -> f k <= sum_over l f.
Proof.
  induction l as [| x l IH]; intros Hin Hpos; [destruct Hin |].
  cbn [sum_over].
  assert (Hx : 0 <= f x) by (apply Hpos; left; reflexivity).
  assert (Hl : 0 <= sum_over l f).
  { apply sum_over_nonneg. intros k' Hk'. apply Hpos. right. exact Hk'. }
  destruct Hin as [-> | Hin].
  - lra.
  - assert (H := IH Hin (fun k' Hk' => Hpos k' (or_intror Hk'))). lra.
Qed.

Lemma arcs_valid (i j m : string) : In (i, j, m) arcs -> valid_arc i j = true.
Proof.
  intros H. apply in_arcs in H. unfold arc_rule in H; cbn [fst snd] in H.
  destruct H as [_ [[-> _] | [[Hi ->] | [Hi ->]]]].
  - reflexivity.
  - unfold valid_arc. apply (proj2 (str_in_In i chao_sources)) in Hi. rewrite Hi.
    rewrite String.eqb_refl. cbn [andb]. rewrite orb_true_r. reflexivity.
  - unfold valid_arc. apply (proj2 (str_in_In i viru_sources)) in Hi. rewrite Hi.
    rewrite String.eqb_refl. cbn [andb]. apply orb_true_r.
Qed.

Lemma feasible_x_at_most_supply (val : string -> Q) (a : Args) (i j m : string) :
  feasible val (chavi_store a) -> In (i, j, m) arcs ->
  val (x_name i j m) <= adjusted_supply a i m.
Proof.
  intros Hf Hin. destruct (arcs_components i j m Hin) as [Hi [Hj Hm]].
  assert (Hs := proj1 (holds_supply val a i m)
                  (feasible_holds val a _ Hf (in_supply a i m Hi Hm))).
  assert (Ht : val (x_name i j m) <= outflow val i m).
  { unfold outflow.
    apply (sum_over_ge_term (filter (fun j => valid_arc i j) demands)
             (fun j => val (x_name i j m)) j).
    - apply filter_In. split; [exact Hj | exact (arcs_valid i j m Hin)].
    - intros j' Hj'. apply filter_In in Hj'. destruct Hj' as [Hd Hv].
      apply (feasible_x_nonneg val a i j' m Hf).
      apply valid_arc_in_arcs; assumption. }
  lra.
Qed.

Lemma scaled_by_size (c x lim : Q) : 0 <= x -> x <= lim -> c * x <= Qabs c * lim.
Proof.
  intros Hx Hl.
  assert (H1 : c * x <= Qabs c * x).
  { apply Qmult_le_compat_r; [apply Qle_Qabs | exact Hx]. }
  assert (H2 : Qabs c * x <= Qabs c * lim).
  { rewrite !(Qmult_comm (Qabs c)). apply Qmult_le_compat_r; [exact Hl | apply Qabs_nonneg]. }
  lra.
Qed.

(** X14. Whatever the penalty rate, the weights, the multipliers and the
    canal capacity, the objective of every feasible assignment is at most
    a bound computed from the data alone: the model is never unbounded. *)
Theorem objective_is_bounded_on_feasible_assignments
    (env : PulpEnv) (a : Args) (val : string -> Q) :
  recognised (scenario a) ->
  feasible val (fst (build_and_solve env a)) ->
  objective_value val (fst (build_and_solve env a)) <= objective_bound a.
Proof.
  intros Hsc Hf. rewrite (store_recognised env a Hsc) in *.
  unfold objective_value; cbn [chavi_store st_prob chavi_problem p_objective snd].
  rewrite lp_eval_objective. unfold objective_bound.
  apply Qplus_le_compat.
  - apply sum_over_le. intros [[i j] m] Hin. cbn [fst snd].
    apply scaled_by_size.
    + exact (feasible_x_nonneg val a i j m Hf Hin).
    + exact (feasible_x_at_most_supply val a i j m Hf Hin).
  - setoid_replace
      (- sum_over (for_for demands months)
           (fun jm => penalty_usd_hm3 a * sector_weight a (fst jm) * val (u_name (fst jm) (snd jm))))
      with (sum_over (for_for demands months)
              (fun jm => - (penalty_usd_hm3 a * sector_weight a (fst jm))
                         * val (u_name (fst jm) (snd jm)))).
    + apply sum_over_le. intros [j m] Hin. cbn [fst snd].
      apply in_for_for in Hin. destruct Hin as [Hj Hm].
      rewrite <- (Qabs_opp (penalty_usd_hm3 a * sector_weight a j)).
      apply scaled_by_size.
      * exact (feasible_u_nonneg val a j m Hf Hj Hm).
      * assert (Hb := proj1 (holds_balance val a j m)
                        (feasible_holds val a _ Hf (in_balance a j m Hj Hm))).
        assert (Hx := feasible_inflow_nonneg val a j m Hf Hj Hm).
        destruct (efficiency_range (scenario a) j Hsc Hj) as [He _].
        assert (Hp : 0 <= inflow val j m * efficiency (scenario a) j).
        { apply Qmult_le_0_compat; [exact Hx | apply Qlt_le_weak; exact He]. }
        lra.
    + assert (G : forall l : list (string * string),
                 - sum_over l (fun jm => penalty_usd_hm3 a * sector_weight a (fst jm)
                                         * val (u_name (fst jm) (snd jm)))
                 == sum_over l (fun jm => - (penalty_usd_hm3 a * sector_weight a (fst jm))
                                          * val (u_name (fst jm) (snd jm)))).
      { induction l as [| k l IH]; cbn [sum_over]; [ring | rewrite <- IH; ring]. }
      apply G.
Qed.

Lemma objective_is_bounded_on_feasible_assignments_witness :
  recognised (scenario default_args) /\
  feasible baseline (fst (build_and_solve idle_env default_args)) /\
  objective_value baseline (fst (build_and_solve idle_env default_args))
  <= objective_bound default_args.
Proof.
  assert (Hsc : recognised (scenario default_args)) by (left; reflexivity).
  assert (Hf := default_model_is_feasible).
  split; [exact Hsc |]. split; [exact Hf |].
  exact (objective_is_bounded_on_feasible_assignments idle_env default_args baseline Hsc Hf).
Defined.

(* ================================================================== *)
(** ** The rows and the summary *)

Lemma alloc_rows_recognised (a : Args) (sol : Solution) (s : Store) :
  recognised (scenario a) ->
  alloc_rows (chavi_locals a) sol s = (s, inr (map (alloc_row_of a sol) arcs)).
Proof.
  destruct a as [sc mc mv pen wp wi wa cap sn tl msg]; unfold recognised; simpl.
  intros [-> | ->].
  - cbv -[Qplus Qmult Qminus Qdiv Qopp inject_Z value_or_zero py_round]. reflexivity.
  - cbv -[Qplus Qmult Qminus Qdiv Qopp inject_Z value_or_zero py_round]. reflexivity.
Qed.

Lemma deficit_rows_recognised (a : Args) (sol : Solution) (s : Store) :
  deficit_rows (chavi_locals a) sol s
  = (s, inr (map (deficit_row_of sol) (for_for demands months),
             map (fun m => (m, month_deficit sol m)) months)).
Proof.
  cbv -[Qplus Qmult Qminus Qdiv Qopp inject_Z value_or_zero py_round]. reflexivity.
Qed.

Lemma summary_by_month (a : Args) (sol : Solution) (status : string) (obj : option Q)
    (bcp : Q * Q * Q) (s : Store) :
  summary a status obj bcp (map (fun m => (m, month_deficit sol m)) months) s
  = (s, inr {| s_status := status;
               s_objective_USD := match obj with Some o => Some (py_round o 2) | None => None end;
               s_benefit_USD := py_round (fst (fst bcp)) 2;
               s_cost_USD := py_round (snd (fst bcp)) 2;
               s_penalty_USD := py_round (snd bcp) 2;
               s_scenario := scenario a;
               s_mult_pozos_chao := mult_pozos_chao a;
               s_mult_pozos_viru := mult_pozos_viru a;
               s_cap_santa_m3s := cap_santa_m3s a;
               s_penalty_usd_hm3 := penalty_usd_hm3 a;
               s_deficits_hm3_by_month :=
                 map (fun m => (m, py_round (month_deficit sol m) 6)) months |}).
Proof.
  unfold summary, bind.
  assert (E : dict_comp
                (fun m => d <- dict_get m (map (fun m => (m, month_deficit sol m)) months) ;;
                          ret (m, py_round d 6)) months s
              = (s, inr (map (fun m => (m, py_round (month_deficit sol m) 6)) months))).
  { cbv -[Qplus Qmult Qminus Qdiv Qopp inject_Z value_or_zero py_round month_deficit].
    reflexivity. }
  unfold bind in E. rewrite E. reflexivity.
Qed.

Lemma build_and_solve_output_recognised (env : PulpEnv) (a : Args) :
  recognised (scenario a) ->
  build_and_solve_output env a
  = (chavi_store a,
     match lp_solve env (choose_solver env a) (chavi_problem a) with
     | inl e => inl e
     | inr sol => inr (chavi_output a sol)
     end).
Proof.
  intros H. unfold build_and_solve_output, build_and_solve_output_M, bind.
  rewrite (build_model_recognised a H).
  unfold solve, get_prob, bind.
  change (st_prob (chavi_store a)) with (Some (chavi_problem a)).
  cbv iota beta.
  destruct (lp_solve env (choose_solver env a) (chavi_problem a)) as [e | sol].
  - reflexivity.
  - unfold ret at 1. cbv iota beta.
    change (st_prob (chavi_store a)) with (Some (chavi_problem a)).
    cbv iota beta.
    rewrite (breakdown_recognised a sol (chavi_store a) H).
    rewrite (alloc_rows_recognised a sol (chavi_store a) H).
    rewrite (deficit_rows_recognised a sol (chavi_store a)).
    cbn [snd fst].
    rewrite (summary_by_month a sol). reflexivity.
Qed.

Lemma build_and_solve_output_unrecognised (env : PulpEnv) (a : Args) :
  ~ recognised (scenario a) ->
  build_and_solve_output env a = (declared_store, inl (KeyError [scenario a])).
Proof.
  intros H. unfold build_and_solve_output, build_and_solve_output_M, bind.
  rewrite (build_model_unrecognised a H). reflexivity.
Qed.

Lemma round_half_even_error (t : Q) :
  - (1 # 2) <= inject_Z (round_half_even t) - t /\ inject_Z (round_half_even t) - t <= 1 # 2.
Proof.
  unfold round_half_even.
  assert (L := Qfloor_le t). assert (U := Qlt_floor t).
  rewrite inject_Z_plus in U. change (inject_Z 1) with 1 in U.
  assert (P1 : inject_Z (Qfloor t + 1) == inject_Z (Qfloor t) + 1).
  { rewrite inject_Z_plus. reflexivity. }
  destruct (Qcompare (t - inject_Z (Qfloor t)) (1 # 2)) eqn:C.
  - apply Qeq_alt in C. destruct (Z.even (Qfloor t)).
    + split; lra.
    + rewrite P1. split; lra.
  - apply Qlt_alt in C. split; lra.
  - apply Qgt_alt in C. rewrite P1. split; lra.
Qed.

Lemma round_half_even_comp (t t' : Q) : t == t' -> round_half_even t = round_half_even t'.
Proof.
  intros E. unfold round_half_even.
  rewrite (Qfloor_comp t t' E).
  assert (C : Qcompare (t - inject_Z (Qfloor t')) (1 # 2)
              = Qcompare (t' - inject_Z (Qfloor t')) (1 # 2)).
  { apply Qcompare_comp; [rewrite E; reflexivity | reflexivity]. }
  rewrite C. reflexivity.
Qed.

Lemma pow10_pos (n : nat) : 0 < pow10 n.
Proof.
  unfold pow10. change 0 with (inject_Z 0). rewrite <- Zlt_Qlt.
  apply Z.pow_pos_nonneg; lia.
Qed.

Lemma py_round_comp (q q' : Q) (n : nat) : q == q' -> py_round q n == py_round q' n.
Proof.
  intros E. unfold py_round.
  rewrite (round_half_even_comp (q * pow10 n) (q' * pow10 n)); [reflexivity |].
  rewrite E. reflexivity.
Qed.

Lemma py_round_error (q : Q) (n : nat) :
  Qabs (py_round q n - q) <= (1 # 2) / pow10 n.
Proof.
  assert (P := pow10_pos n).
  assert (N : ~ pow10 n == 0) by (intros E; rewrite E in P; discriminate P).
  destruct (round_half_even_error (q * pow10 n)) as [L U].
  set (z := inject_Z (round_half_even (q * pow10 n))) in *.
  assert (E : py_round q n - q == (z - q * pow10 n) / pow10 n).
  { unfold py_round. fold z. field. exact N. }
  rewrite E. apply Qabs_Qle_condition.
  assert (I : 0 < / pow10 n) by (apply Qinv_lt_0_compat; exact P).
  unfold Qdiv. split.
  - setoid_replace (- ((1 # 2) * / pow10 n)) with ((- (1 # 2)) * / pow10 n) by ring.
    apply Qmult_le_compat_r; [exact L | apply Qlt_le_weak; exact I].
  - apply Qmult_le_compat_r; [exact U | apply Qlt_le_weak; exact I].
Qed.

Lemma py_round_error_6 (q : Q) : Qabs (py_round q 6 - q) <= 0.0000005.
Proof.
  assert (H := py_round_error q 6).
  setoid_replace ((1 # 2) / pow10 6) with 0.0000005 in H by (vm_compute; reflexivity).
  exact H.
Qed.

Lemma py_round_error_2 (q : Q) : Qabs (py_round q 2 - q) <= 0.005.
Proof.
  assert (H := py_round_error q 2).
  setoid_replace ((1 # 2) / pow10 2) with 0.005 in H by (vm_compute; reflexivity).
  exact H.
Qed.

Lemma py_round_zero (q : Q) (n : nat) : q == 0 -> py_round q n == 0.
Proof.
  intros E. rewrite (py_round_comp q 0 n E). unfold py_round.
  setoid_replace (0 * pow10 n) with 0 by ring.
  change (round_half_even 0) with 0%Z. unfold Qdiv. change (inject_Z 0) with 0. ring.
Qed.

Lemma sum_over_map {A B : Type} (l : list A) (g : A -> B) (f : B -> Q) :
  sum_over (map g l) f = sum_over l (fun k => f (g k)).
Proof.
  induction l as [| k l IH]; cbn [map sum_over]; [reflexivity | rewrite IH; reflexivity].
Qed.

Lemma sum_over_close {A : Type} (l : list A) (f g : A -> Q) (eps : Q) :
  (forall k, In k l -> Qabs (f k - g k) <= eps) ->
  Qabs (sum_over l f - sum_over l g) <= inject_Z (Z.of_nat (length l)) * eps.
Proof.
  induction l as [| k l IH]; intros H.
  - cbn [sum_over length]. setoid_replace (0 - 0) with 0 by ring.
    change (inject_Z (Z.of_nat 0)) with 0. setoid_replace (0 * eps) with 0 by ring.
    apply Qle_refl.
  - cbn [sum_over]. cbn [length]. rewrite Nat2Z.inj_succ. unfold Z.succ.
    rewrite inject_Z_plus. change (inject_Z 1) with 1.
    assert (H1 := H k (or_introl eq_refl)).
    assert (H2 : Qabs (sum_over l f - sum_over l g) <= inject_Z (Z.of_nat (length l)) * eps).
    { apply IH. intros k' Hk'. apply H. right. exact Hk'. }
    apply Qabs_Qle_condition in H1. apply Qabs_Qle_condition in H2.
    apply Qabs_Qle_condition. split; lra.
Qed.

Lemma output_returns (env : PulpEnv) (a : Args) (st : Store) (out : Output) :
  build_and_solve_output env a = (st, inr out) ->
  recognised (scenario a) /\ st = chavi_store a /\
  exists sol, lp_solve env (choose_solver env a) (chavi_problem a) = inr sol /\
              out = chavi_output a sol.
Proof.
  intros H. destruct (recognised_dec (scenario a)) as [Hsc | Hsc].
  - split; [exact Hsc |].
    rewrite (build_and_solve_output_recognised env a Hsc) in H.
    destruct (lp_solve env (choose_solver env a) (chavi_problem a)) as [e | sol].
    + discriminate H.
    + inversion H. split; [reflexivity |]. exists sol. split; reflexivity.
  - rewrite (build_and_solve_output_unrecognised env a Hsc) in H. discriminate H.
Qed.

(** The earlier, shorter result is the first five fields of the output. *)
Lemma build_and_solve_output_extends (env : PulpEnv) (a : Args) :
  build_and_solve env a
  = (fst (build_and_solve_output env a),
     match snd (build_and_solve_output env a) with
     | inl e => inl e
     | inr out =>
         inr {| r_status := o_status out; r_objective := o_objective out;
                r_benefit_total := o_benefit_total out; r_cost_total := o_cost_total out;
                r_penalty_total := o_penalty_total out |}
     end).
Proof.
  destruct (recognised_dec (scenario a)) as [Hsc | Hsc].
  - rewrite (build_and_solve_recognised env a Hsc),
            (build_and_solve_output_recognised env a Hsc).
    cbn [fst snd].
    destruct (lp_solve env (choose_solver env a) (chavi_problem a)); reflexivity.
  - rewrite (build_and_solve_unrecognised env a Hsc),
            (build_and_solve_output_unrecognised env a Hsc). reflexivity.
Qed.

Lemma arcs_nodup : NoDup arcs.
Proof.
  exact (NoDup_map_inv (fun ijm : arc => v_name (x_of_arc ijm)) arcs x_names_distinct).
Qed.

(** A run with the default arguments whose solve gives every variable
    the value 1, and one whose solve gives the baseline assignment. *)
Lemma default_run_output :
  build_and_solve_output ones_env default_args
  = (chavi_store default_args, inr (chavi_output default_args ones_solution)).
Proof.
  cbv -[Qplus Qmult Qminus Qdiv Qopp inject_Z value_or_zero py_round]. reflexivity.
Qed.

Lemma baseline_run_output :
  build_and_solve_output baseline_env default_args
  = (chavi_store default_args, inr (chavi_output default_args baseline_solution)).
Proof.
  cbv -[Qplus Qmult Qminus Qdiv Qopp inject_Z value_or_zero py_round baseline]. reflexivity.
Qed.

Lemma baseline_solution_feasible :
  feasible (solved_values baseline_solution) (chavi_store default_args).
Proof. apply feasible_b_sound. vm_compute. reflexivity. Qed.

(** X7. When the call returns, the allocation rows are one per allowed arc
    (204 rows, no arc twice, no row for any other triple) and the deficit
    rows are one per demand and month (120 rows). *)
Theorem one_row_per_arc_and_per_deficit
    (env : PulpEnv) (a : Args) (st : Store) (out : Output) :
  build_and_solve_output env a = (st, inr out) ->
  NoDup (map (fun r => (a_source r, a_demand r, a_month r)) (o_alloc_rows out)) /\
  (forall ijm : arc,
     In ijm (map (fun r => (a_source r, a_demand r, a_month r)) (o_alloc_rows out))
     <-> In ijm allowed_arcs) /\
  length (o_alloc_rows out) = 204%nat /\
  NoDup (map (fun r => (d_demand r, d_month r)) (o_deficit_rows out)) /\
  (forall j m,
     In (j, m) (map (fun r => (d_demand r, d_month r)) (o_deficit_rows out))
     <-> In j demands /\ In m months) /\
  length (o_deficit_rows out) = 120%nat.
Proof.
  intros H. destruct (output_returns env a st out H) as [Hsc [-> [sol [_ ->]]]].
  cbn [chavi_output o_alloc_rows o_deficit_rows].
  assert (E1 : map (fun r => (a_source r, a_demand r, a_month r)) (map (alloc_row_of a sol) arcs)
               = arcs).
  { rewrite map_map. rewrite <- (map_id arcs) at 2. apply map_ext.
    intros [[i j] m]. reflexivity. }
  assert (E2 : map (fun r => (d_demand r, d_month r))
                   (map (deficit_row_of sol) (for_for demands months))
               = for_for demands months).
  { rewrite map_map. rewrite <- (map_id (for_for demands months)) at 2. apply map_ext.
    intros [j m]. reflexivity. }
  rewrite E1, E2, allowed_arcs_arcs, !length_map.
  split; [exact arcs_nodup |]. split; [tauto |]. split; [reflexivity |].
  split; [| split; [intros j m; apply in_for_for | reflexivity]].
  apply (NoDup_map_inv (fun jm : string * string => v_name (u_var (fst jm) (snd jm)))).
  assert (Hn := variable_names_distinct). unfold chavi_variables in Hn.
  rewrite map_app, !map_map in Hn. exact (NoDup_app_remove_l _ _ Hn).
Qed.

Lemma one_row_per_arc_and_per_deficit_witness :
  build_and_solve_output ones_env default_args
  = (chavi_store default_args, inr (chavi_output default_args ones_solution)) /\
  length (o_alloc_rows (chavi_output default_args ones_solution)) = 204%nat /\
  length (o_deficit_rows (chavi_output default_args ones_solution)) = 120%nat.
Proof.
  assert (H := default_run_output).
  split; [exact H |].
  destruct (one_row_per_arc_and_per_deficit ones_env default_args _ _ H)
    as [_ [_ [H3 [_ [_ H6]]]]].
  split; [exact H3 | exact H6].
Defined.

(** X8. Every allocation row belongs to an allowed arc and carries the
    solved allocation, the delivered volume (efficiency times allocation),
    the cost and the benefit of that arc, each within half a unit of its
    last decimal: 0.0000005 hm3 for the volumes, 0.005 USD for the
    money. *)
Theorem row_fields_are_rounded_exact_values
    (env : PulpEnv) (a : Args) (st : Store) (out : Output) (r : AllocRow) :
  build_and_solve_output env a = (st, inr out) -> In r (o_alloc_rows out) ->
  exists sol,
    lp_solve env (choose_solver env a) (chavi_problem a) = inr sol /\
    In (a_source r, a_demand r, a_month r) allowed_arcs /\
    let xv := solved_values sol (x_name (a_source r) (a_demand r) (a_month r)) in
    let e := efficiency (scenario a) (a_demand r) in
    Qabs (a_x_hm3 r - xv) <= 0.0000005 /\
    Qabs (a_delivered_hm3 r - e * xv) <= 0.0000005 /\
    Qabs (a_cost_USD r - unit_cost (a_source r) * xv) <= 0.005 /\
    Qabs (a_benefit_USD r - e * unit_value (a_demand r) * xv) <= 0.005.
Proof.
  intros H Hr. destruct (output_returns env a st out H) as [Hsc [-> [sol [Hsol ->]]]].
  cbn [chavi_output o_alloc_rows] in Hr. apply in_map_iff in Hr.
  destruct Hr as [[[i j] m] [<- Hin]].
  exists sol. split; [exact Hsol |].
  cbn [alloc_row_of a_source a_demand a_month a_x_hm3 a_delivered_hm3 a_cost_USD
       a_benefit_USD fst snd].
  split; [rewrite allowed_arcs_arcs; exact Hin |].
  change (x_value sol (i, j, m)) with (solved_values sol (x_name i j m)).
  cbv zeta.
  split; [apply py_round_error_6 |]. split; [apply py_round_error_6 |].
  split; [apply py_round_error_2 |].
  rewrite (py_round_comp
             (unit_value j * (efficiency (scenario a) j * solved_values sol (x_name i j m)))
             (efficiency (scenario a) j * unit_value j * solved_values sol (x_name i j m)) 2)
    by ring.
  apply py_round_error_2.
Qed.

Lemma row_fields_are_rounded_exact_values_witness :
  build_and_solve_output ones_env default_args
  = (chavi_store default_args, inr (chavi_output default_args ones_solution)) /\
  In (alloc_row_of default_args ones_solution ("Santa", "Chao", "Ene"))
     (o_alloc_rows (chavi_output default_args ones_solution)) /\
  exists sol,
    lp_solve ones_env (choose_solver ones_env default_args) (chavi_problem default_args)
    = inr sol /\
    Qabs (a_x_hm3 (alloc_row_of default_args ones_solution ("Santa", "Chao", "Ene"))
          - solved_values sol (x_name "Santa" "Chao" "Ene")) <= 0.0000005.
Proof.
  assert (H := default_run_output).
  assert (Hr : In (alloc_row_of default_args ones_solution ("Santa", "Chao", "Ene"))
                  (o_alloc_rows (chavi_output default_args ones_solution)))
    by (left; reflexivity).
  split; [exact H |]. split; [exact Hr |].
  destruct (row_fields_are_rounded_exact_values ones_env default_args _ _ _ H Hr)
    as [sol [H1 [_ [H3 _]]]].
  exists sol. split; [exact H1 | exact H3].
Defined.

(** X9. The cost column and the benefit column of the allocation rows add
    up to the cost total and the benefit total of the breakdown within
    1.02 USD (204 rows of at most 0.005 each), and each total of the
    summary is within 0.005 USD of the total it rounds. *)
Theorem row_totals_reconcile_with_breakdown
    (env : PulpEnv) (a : Args) (st : Store) (out : Output) :
  build_and_solve_output env a = (st, inr out) ->
  Qabs (sum_over (o_alloc_rows out) a_cost_USD - o_cost_total out) <= 1.02 /\
  Qabs (sum_over (o_alloc_rows out) a_benefit_USD - o_benefit_total out) <= 1.02 /\
  Qabs (s_cost_USD (o_summary out) - o_cost_total out) <= 0.005 /\
  Qabs (s_benefit_USD (o_summary out) - o_benefit_total out) <= 0.005 /\
  Qabs (s_penalty_USD (o_summary out) - o_penalty_total out) <= 0.005.
Proof.
  intros H. destruct (output_returns env a st out H) as [Hsc [-> [sol [Hsol ->]]]].
  cbn [chavi_output o_alloc_rows o_cost_total o_benefit_total o_penalty_total o_summary
       chavi_summary s_cost_USD s_benefit_USD s_penalty_USD].
  rewrite !sum_over_map.
  assert (L : inject_Z (Z.of_nat (length arcs)) * 0.005 == 1.02) by (vm_compute; reflexivity).
  split.
  { rewrite cost_total_sum, <- L. apply sum_over_close. intros [[i j] m] _.
    cbn [alloc_row_of a_cost_USD fst snd]. apply py_round_error_2. }
  split.
  { rewrite benefit_total_sum, <- L. apply sum_over_close. intros [[i j] m] _.
    cbn [alloc_row_of a_benefit_USD fst snd].
    rewrite (py_round_comp
               (unit_value j * (efficiency (scenario a) j * x_value sol (i, j, m)))
               (efficiency (scenario a) j * unit_value j * x_value sol (i, j, m)) 2)
      by ring.
    apply py_round_error_2. }
  split; [exact (py_round_error_2 (cost_total sol)) |].
  split; [exact (py_round_error_2 (benefit_total a sol)) |].
  exact (py_round_error_2 (penalty_total a sol)).
Qed.

Lemma row_totals_reconcile_with_breakdown_witness :
  build_and_solve_output ones_env default_args
  = (chavi_store default_args, inr (chavi_output default_args ones_solution)) /\
  Qabs (sum_over (o_alloc_rows (chavi_output default_args ones_solution)) a_cost_USD
        - o_cost_total (chavi_output default_args ones_solution)) <= 1.02 /\
  Qabs (sum_over (o_alloc_rows (chavi_output default_args ones_solution)) a_benefit_USD
        - o_benefit_total (chavi_output default_args ones_solution)) <= 1.02.
Proof.
  assert (H := default_run_output).
  split; [exact H |].
  destruct (row_totals_reconcile_with_breakdown ones_env default_args _ _ H)
    as [H1 [H2 _]].
  split; [exact H1 | exact H2].
Defined.

Lemma month_deficit_sum (sol : Solution) (m : string) :
  month_deficit sol m == sum_over demands (fun j => u_value sol (j, m)).
Proof.
  unfold month_deficit.
  rewrite (fold_left_sum demands (fun j => u_value sol (j, m))). ring.
Qed.

Lemma rows_of_month (sol : Solution) (m : string) :
  In m months ->
  filter (fun r => String.eqb (d_month r) m)
         (map (deficit_row_of sol) (for_for demands months))
  = map (fun j => deficit_row_of sol (j, m)) demands.
Proof.
  intros Hm. each_month Hm;
    cbv -[Qplus Qmult Qminus Qdiv Qopp inject_Z value_or_zero py_round]; reflexivity.
Qed.

Lemma by_month_entry (sol : Solution) (m : string) :
  In m months ->
  dict_find m (map (fun m => (m, py_round (month_deficit sol m) 6)) months)
  = Some (py_round (month_deficit sol m) 6).
Proof.
  intros Hm. each_month Hm; reflexivity.
Qed.

(** X10. For every month the summary holds a deficit entry; it is within
    0.0000005 hm3 of the sum of the solved deficits of the ten demands in
    that month, and within 0.0000055 hm3 of the sum of the deficit rows of
    that month. *)
Theorem monthly_deficit_is_the_sum_over_demands
    (env : PulpEnv) (a : Args) (st : Store) (out : Output) (m : string) :
  build_and_solve_output env a = (st, inr out) -> In m months ->
  exists sol d,
    lp_solve env (choose_solver env a) (chavi_problem a) = inr sol /\
    dict_find m (s_deficits_hm3_by_month (o_summary out)) = Some d /\
    Qabs (d - sum_over demands (fun j => solved_values sol (u_name j m))) <= 0.0000005 /\
    Qabs (d - sum_over (filter (fun r => String.eqb (d_month r) m) (o_deficit_rows out))
                       d_deficit_hm3)
    <= 0.0000055.
Proof.
  intros H Hm. destruct (output_returns env a st out H) as [Hsc [-> [sol [Hsol ->]]]].
  exists sol, (py_round (month_deficit sol m) 6).
  split; [exact Hsol |].
  cbn [chavi_output o_summary o_deficit_rows chavi_summary s_deficits_hm3_by_month].
  split; [exact (by_month_entry sol m Hm) |].
  assert (E1 : Qabs (py_round (month_deficit sol m) 6
                     - sum_over demands (fun j => solved_values sol (u_name j m)))
               <= 0.0000005).
  { change (fun j => solved_values sol (u_name j m)) with (fun j => u_value sol (j, m)).
    rewrite <- month_deficit_sum. apply py_round_error_6. }
  split; [exact E1 |].
  rewrite (rows_of_month sol m Hm), sum_over_map.
  cbn [deficit_row_of d_deficit_hm3].
  assert (E2 : Qabs (sum_over demands (fun j => py_round (u_value sol (j, m)) 6)
                     - sum_over demands (fun j => u_value sol (j, m)))
               <= inject_Z (Z.of_nat (length demands)) * 0.0000005).
  { apply sum_over_close. intros j _. apply py_round_error_6. }
  setoid_replace (inject_Z (Z.of_nat (length demands)) * 0.0000005) with 0.000005 in E2
    by (vm_compute; reflexivity).
  change (fun j => solved_values sol (u_name j m)) with (fun j => u_value sol (j, m)) in E1.
  apply Qabs_Qle_condition in E1. apply Qabs_Qle_condition in E2.
  apply Qabs_Qle_condition. split; lra.
Qed.

Lemma monthly_deficit_is_the_sum_over_demands_witness :
  build_and_solve_output ones_env default_args
  = (chavi_store default_args, inr (chavi_output default_args ones_solution)) /\
  In "Ene" months /\
  exists sol d,
    lp_solve ones_env (choose_solver ones_env default_args) (chavi_problem default_args)
    = inr sol /\
    dict_find "Ene" (s_deficits_hm3_by_month
                       (o_summary (chavi_output default_args ones_solution))) = Some d /\
    Qabs (d - sum_over demands (fun j => solved_values sol (u_name j "Ene"))) <= 0.0000005.
Proof.
  assert (H := default_run_output).
  assert (Hm : In "Ene" months) by (left; reflexivity).
  split; [exact H |]. split; [exact Hm |].
  destruct (monthly_deficit_is_the_sum_over_demands ones_env default_args _ _ "Ene" H Hm)
    as [sol [d [H1 [H2 [H3 _]]]]].
  exists sol, d. split; [exact H1 |]. split; [exact H2 | exact H3].
Defined.

(** X11. When the values that the solve leaves satisfy the model, every
    deficit row of a priority demand shows 0, and every allocation row of
    a priority demand is a Santa row whose allocated volume is the rounded
    converted demand and whose delivered volume equals it. *)
Theorem feasible_solution_shows_no_priority_deficit
    (env : PulpEnv) (a : Args) (st : Store) (out : Output) (sol : Solution) :
  build_and_solve_output env a = (st, inr out) ->
  lp_solve env (choose_solver env a) (chavi_problem a) = inr sol ->
  feasible (solved_values sol) st ->
  (forall r, In r (o_deficit_rows out) ->
             In (d_demand r) ["PTAP_Trujillo"; "PTAP_Chao"; "Industria"; "Pecuario"] ->
             d_deficit_hm3 r == 0) /\
  (forall r, In r (o_alloc_rows out) ->
             In (a_demand r) ["PTAP_Trujillo"; "PTAP_Chao"; "Industria"; "Pecuario"] ->
             a_source r = "Santa" /\
             a_x_hm3 r == py_round (demand_volume (a_demand r) (a_month r)) 6 /\
             a_delivered_hm3 r == a_x_hm3 r).
Proof.
  intros H Hsol Hf. destruct (output_returns env a st out H) as [Hsc [-> [sol' [Hsol' ->]]]].
  rewrite Hsol in Hsol'. inversion Hsol'; subst sol'; clear Hsol'.
  cbn [chavi_output o_alloc_rows o_deficit_rows]. split.
  - intros r Hr Hp. apply in_map_iff in Hr. destruct Hr as [[j m] [<- Hin]].
    cbn [deficit_row_of d_demand d_deficit_hm3 fst snd] in *.
    apply in_for_for in Hin. destruct Hin as [_ Hm].
    apply py_round_zero.
    apply (proj1 (holds_zero_deficit (solved_values sol) j m)).
    exact (feasible_holds _ a _ Hf (in_zero_deficit a j m Hp Hm)).
  - intros r Hr Hp. apply in_map_iff in Hr. destruct Hr as [[[i j] m] [<- Hin]].
    cbn [alloc_row_of a_source a_demand a_month a_x_hm3 a_delivered_hm3 fst snd] in *.
    destruct (priority_not_local j Hp) as [N1 N2].
    assert (Hs : i = "Santa").
    { apply in_arcs in Hin. unfold arc_rule in Hin; cbn [fst snd] in Hin.
      destruct Hin as [_ [[E _] | [[_ E] | [_ E]]]]; [exact E | contradiction | contradiction]. }
    subst i. split; [reflexivity |].
    destruct (arcs_components "Santa" j m Hin) as [_ [_ Hm]].
    assert (Ex := feasible_priority_santa (solved_values sol) a j m Hsc Hp Hm Hf).
    change (x_value sol ("Santa", j, m)) with (solved_values sol (x_name "Santa" j m)).
    split.
    + apply py_round_comp. exact Ex.
    + apply py_round_comp. rewrite (priority_efficiency (scenario a) j Hsc Hp). ring.
Qed.

Lemma feasible_solution_shows_no_priority_deficit_witness :
  build_and_solve_output baseline_env default_args
  = (chavi_store default_args, inr (chavi_output default_args baseline_solution)) /\
  lp_solve baseline_env (choose_solver baseline_env default_args) (chavi_problem default_args)
  = inr baseline_solution /\
  feasible (solved_values baseline_solution) (chavi_store default_args) /\
  (forall r, In r (o_deficit_rows (chavi_output default_args baseline_solution)) ->
             In (d_demand r) ["PTAP_Trujillo"; "PTAP_Chao"; "Industria"; "Pecuario"] ->
             d_deficit_hm3 r == 0).
Proof.
  assert (H := baseline_run_output).
  assert (Hs : lp_solve baseline_env (choose_solver baseline_env default_args)
                 (chavi_problem default_args) = inr baseline_solution) by reflexivity.
  assert (Hf := baseline_solution_feasible).
  split; [exact H |]. split; [exact Hs |]. split; [exact Hf |].
  exact (proj1 (feasible_solution_shows_no_priority_deficit
                  baseline_env default_args _ _ baseline_solution H Hs Hf)).
Defined.
